(** * hanafs: the HANA repository client and the FUSE adapter

    A shallow embedding of [hana/client.go] (package [hana]) and of the
    filesystem adapter (package [fs]) of hanafs, with the properties of the
    token-refresh protocol, the caches and the negative-existence list.

    Go values are modelled as follows.
    - [int], [int64], [uint32] are [Z]; the one addition that can leave the
      [int64] range ([Read]) is wrapped explicitly.
    - [string] is [string], [[]byte] is [list byte].
    - a Go [(value, error)] pair whose pointer may be [nil] is a pair of
      options; a method call on a [nil] receiver is a run-time panic.
    - [map[string]T] is [gmap string T]; [*fuse.Stat_t] is a location in a
      heap of records, so that the caches, the directory listings and the
      adapter share one record, as they do in the source.
    - the remote service, reached through [github.com/imroc/req], is a
      function from the requests sent so far and the current request to a
      reply; every request sent is recorded. *)

From Stdlib Require Import ZArith String Ascii List Bool Lia.
From stdpp Require Import gmap strings list fin_maps.

Local Open Scope Z_scope.

(** ** Errors and outcomes *)

Inductive error : Type :=
| ErrFileNotFound                  (* hana.ErrFileNotFound *)
| errors_New (msg : string)        (* errors.New(msg) *)
| library_error (msg : string).    (* an error produced by req, net/http or encoding/json *)

Inductive panic : Type :=
| nil_dereference
| slice_bounds_out_of_range.

Inductive Outcome (A : Type) : Type :=
| Ret (a : A)
| Panic (p : panic).

Arguments Ret {A} a.
Arguments Panic {A} p.

(** A computation over a state [S] that returns or panics. *)
Definition Comp (S A : Type) : Type := S -> Outcome (A * S).

Definition ret {S A} (a : A) : Comp S A := fun s => Ret (a, s).

Definition bind {S A B} (m : Comp S A) (k : A -> Comp S B) : Comp S B :=
  fun s => match m s with
           | Ret (a, s') => k a s'
           | Panic p => Panic p
           end.

Definition throw {S A} (p : panic) : Comp S A := fun _ => Panic p.

Definition get {S} : Comp S S := fun s => Ret (s, s).

Definition modify {S} (f : S -> S) : Comp S unit := fun s => Ret (tt, f s).

Notation "'let*' x ':=' c 'in' k" := (bind c (fun x => k))
  (at level 10, x pattern, c at level 100, k at level 200).

Notation "c1 '>>' c2" := (bind c1 (fun _ => c2))
  (at level 100, c2 at level 200, right associativity).

(** ** HTTP, as seen through [req] *)

(** [req.Header] and [req.QueryParam], the variadic arguments of [req.Do]. *)
Inductive Info : Type :=
| Header (h : list (string * string))
| QueryParam (q : list (string * string)).

Record Request : Type := mkRequest {
  rq_method : string;
  rq_url : string;
  rq_infos : list Info
}.

(** [http.Response]: the fields the client reads. *)
Record http_Response : Type := mk_http_Response {
  StatusCode : Z;
  resp_Header : list (string * string)
}.

(** [req.Resp]: the response and the result of reading its body. *)
Record Resp : Type := mkResp {
  Response : http_Response;
  resp_body : list Byte.byte + error
}.

Inductive Reply : Type :=
| Answered (r : Resp)
| TransportError (e : error).

Definition lower_ascii (c : ascii) : ascii :=
  let n := nat_of_ascii c in
  if ((65 <=? n) && (n <=? 90))%nat then ascii_of_nat (n + 32) else c.

Definition upper_ascii (c : ascii) : ascii :=
  let n := nat_of_ascii c in
  if ((97 <=? n) && (n <=? 122))%nat then ascii_of_nat (n - 32) else c.

(** [strings.ToLower] on the bytes of UTF-8 text. The letters A to Z are
    lowered; so are the two runes beyond ASCII that Unicode lowers to an
    ASCII letter, U+0130 (bytes 196 176) to [i] and U+212A (bytes 226 132
    170) to [k]. Go lowers every other rune beyond ASCII to a rune beyond
    ASCII; their bytes are kept here, which gives the same answer whenever
    the result is compared with ASCII text, its only use in the client. *)
Fixpoint strings_ToLower (s : string) : string :=
  match s with
  | EmptyString => EmptyString
  | String c r =>
      match c, r with
      | "196"%char, String "176"%char r' => String "i"%char (strings_ToLower r')
      | "226"%char, String "132"%char (String "170"%char r') =>
          String "k"%char (strings_ToLower r')
      | _, _ => String (lower_ascii c) (strings_ToLower r)
      end
  end.

(** [textproto.CanonicalMIMEHeaderKey], on header names made of letters,
    digits and dashes: the first letter and every letter after a dash in
    upper case, the others in lower case. *)
Fixpoint canonical_from (up : bool) (s : string) : string :=
  match s with
  | EmptyString => EmptyString
  | String c r =>
      String (if up then upper_ascii c else lower_ascii c)
             (canonical_from (Ascii.eqb c "-"%char) r)
  end.

Definition CanonicalMIMEHeaderKey (s : string) : string := canonical_from true s.

(** [http.Header.Get]: the first value stored under the canonical form of
    the key, or the empty string. *)
Fixpoint Header_Get (h : list (string * string)) (key : string) : string :=
  match h with
  | [] => ""%string
  | (k, v) :: r =>
      if String.eqb (CanonicalMIMEHeaderKey k) (CanonicalMIMEHeaderKey key)
      then v else Header_Get r key
  end.

Definition keyCSRFTokenHeader : string := "x-csrf-token".
Definition keyAuthorization : string := "Authorization".
Definition valueRequired : string := "required".
Definition StatusForbidden : Z := 403.

Definition isCSRFTokenError (response : http_Response) : bool :=
  (StatusCode response =? StatusForbidden) &&
  String.eqb (strings_ToLower (Header_Get (resp_Header response) keyCSRFTokenHeader))
             valueRequired.

(** ** The client *)

(** [url.URL]: [Host] is the host with its port when one is given. *)
Record URL : Type := mkURL {
  url_Hostname : string;
  url_Port : string;
  url_Username : string;
  url_Password : string;
  url_Path : string
}.

Definition url_Host (u : URL) : string :=
  if String.eqb (url_Port u) "" then url_Hostname u
  else (url_Hostname u +:+ ":" +:+ url_Port u)%string.

Record Client : Type := mkClient {
  uri : URL;
  token : string;
  sslVerify : bool;
  baseDirectory : string
}.

Definition set_token (t : string) (c : Client) : Client :=
  {| uri := uri c; token := t; sslVerify := sslVerify c;
     baseDirectory := baseDirectory c |}.

Definition formatURI (c : Client) (path : string) : string :=
  let port := url_Port (uri c) in
  let port := if (String.length port =? 0)%nat then "443"%string else port in
  ("https://" +:+ url_Host (uri c) +:+ ":" +:+ port +:+ path)%string.

(** The client together with the requests it has sent, most recent first. *)
Record Net : Type := mkNet {
  client : Client;
  sent : list Request
}.

Definition set_client (c : Client) (n : Net) : Net :=
  {| client := c; sent := sent n |}.

(** ** Documents of the remote service *)

(** One entry of [hana.DirectoryDetail.Children]. *)
Record Child : Type := mkChild {
  Name : string;
  ContentLocation : string;
  child_Directory : bool
}.

Record DirectoryDetail : Type := mkDirectoryDetail {
  Children : list Child
}.

Record Attributes : Type := mkAttributes {
  attr_Executable : bool;
  attr_Archive : bool;
  attr_Hidden : bool;
  attr_ReadOnly : bool;
  attr_SymbolicLink : bool;
  attr_Activated : bool       (* Attributes.SapBackPack.Activated, file documents only *)
}.

Record DirectoryMeta : Type := mkDirectoryMeta {
  dm_Directory : bool;
  dm_Attributes : Attributes;
  dm_LocalTimeStamp : Z
}.

Record File : Type := mkFile {
  file_Directory : bool;
  file_Attributes : Attributes;
  file_LocalTimeStamp : Z
}.

Record PathStat : Type := mkPathStat {
  Directory : bool;
  Executable : bool;
  Archive : bool;
  Hidden : bool;
  ReadOnly : bool;
  SymbolicLink : bool;
  Activated : bool;
  TimeStamp : Z
}.

Definition file_prefix : string := "/sap/hana/xs/dt/base/file".
Definition info_path : string := "/sap/hana/xs/dt/base/info".

(** What the client depends on and the source does not define: the remote
    service and the library decoders. *)
Record Env : Type := mkEnv {
  (* the reply of the remote service to a request, given the requests it
     has received before (most recent first) *)
  remote : list Request -> Request -> Reply;
  (* [basicAuth user password], declared in another file of the package *)
  basicAuth : string -> string -> string;
  (* [encoding/json] and [gjson] on the documents above *)
  json_DirectoryDetail : list Byte.byte -> DirectoryDetail + error;
  gjson_Directory : string -> bool;
  json_DirectoryMeta : string -> DirectoryMeta + error;
  json_File : string -> File + error
}.

Section Remote.

Variable E : Env.

(** [req.Do]: sends the request; the response pointer is [nil] exactly when
    the round trip fails. *)
Definition req_Do (method url : string) (infos : list Info)
  : Comp Net (option Resp * option error) :=
  fun n =>
    let rq := mkRequest method url infos in
    let n' := {| client := client n; sent := rq :: sent n |} in
    match remote E (sent n) rq with
    | Answered r => Ret ((Some r, None), n')
    | TransportError e => Ret ((None, Some e), n')
    end.

(** [resp.Response()] on a [*req.Resp]: reads a field of the receiver. *)
Definition Resp_Response {S} (resp : option Resp) : Comp S http_Response :=
  match resp with
  | Some r => ret (Response r)
  | None => throw nil_dereference
  end.

Definition auth_header (c : Client) (tok : string) : Info :=
  Header [(keyCSRFTokenHeader, tok);
          (keyAuthorization, basicAuth E (url_Username (uri c)) (url_Password (uri c)))].

Definition fetchCSRFToken : Comp Net (option error) :=
  let* n := get in
  let c := client n in
  let header := auth_header c "fetch" in
  let* (resp, err) := req_Do "HEAD" (formatURI c info_path) [header] in
  match err with
  | Some e => ret (Some e)
  | None =>
      let* httpResponse := Resp_Response resp in
      let status := StatusCode httpResponse in
      let token := Header_Get (resp_Header httpResponse) "x-csrf-token" in
      if negb (String.length token =? 0)%nat && negb (String.eqb token "unsafe")
      then modify (fun n => set_client (set_token token (client n)) n) >> ret None
      else if (300 <=? status) && (status <? 400)
      then ret (Some (errors_New "redirect, please check your credential"))
      else if (400 <=? status) && (status <? 500)
      then ret (Some (errors_New "request is not accepted"))
      else if (500 <=? status) && (status <? 600)
      then ret (Some (errors_New "server is down"))
      else ret (Some (errors_New "could not fetch csrf token, please check your credential"))
  end.

Definition request (method path : string) (infos : list Info)
  : Comp Net (option Resp * option error) :=
  let* n := get in
  let c := client n in
  let url := formatURI c path in
  let header := auth_header c (token c) in
  let infos := infos ++ [header] in
  let* (resp, err) := req_Do method url infos in
  let* response := Resp_Response resp in
  let* (resp, err) :=
    if isCSRFTokenError response then
      let* r := fetchCSRFToken in
      match r with
      | Some e => ret (None, Some e)
      | None => req_Do method url infos
      end
    else ret (resp, err) in
  match err with
  | Some e => ret (None, Some e)
  | None => ret (resp, err)
  end.

(** [resp.ToBytes()]. *)
Definition Resp_ToBytes {S} (resp : option Resp) : Comp S (list Byte.byte + error) :=
  match resp with
  | Some r => ret (resp_body r)
  | None => throw nil_dereference
  end.

(** ReadFile content *)
Definition ReadFile (filePath : string) : Comp Net (list Byte.byte + error) :=
  let* (res, err) := request "GET" (file_prefix +:+ filePath)%string [] in
  match err with
  | Some e => ret (inr e)
  | None =>
      let* response := Resp_Response res in
      if StatusCode response =? 404 then ret (inr ErrFileNotFound)
      else Resp_ToBytes res
  end.

(** ReadDirectory information *)
Definition ReadDirectory (filePath : string) : Comp Net (DirectoryDetail + error) :=
  let* (res, err) :=
    request "GET" (file_prefix +:+ filePath)%string
            [QueryParam [("depth", "1")]]%string in
  match err with
  | Some e => ret (inr e)
  | None =>
      let* response := Resp_Response res in
      if StatusCode response =? 404 then ret (inr ErrFileNotFound)
      else
        let* body := Resp_ToBytes res in
        match body with
        | inr e => ret (inr e)
        | inl b => ret (json_DirectoryDetail E b)
        end
  end.

(** Stat func *)
Definition Stat (filePath : string) : Comp Net (PathStat + error) :=
  let query := QueryParam [("depth", "0"); ("parts", "meta")]%string in
  let* (res, err) := request "GET" (file_prefix +:+ filePath)%string [query] in
  match err with
  | Some e => ret (inr e)
  | None =>
      let* response := Resp_Response res in
      if StatusCode response =? 404 then ret (inr ErrFileNotFound)
      else
        let* r := Resp_ToBytes res in
        (* the error of [res.ToString()] is overwritten, never read *)
        let body := match r with
                    | inl b => string_of_list_byte b
                    | inr _ => ""%string
                    end in
        if gjson_Directory E body then
          match json_DirectoryMeta E body with
          | inr e => ret (inr e)
          | inl dir =>
              ret (inl {| Directory := dm_Directory dir;
                          Executable := attr_Executable (dm_Attributes dir);
                          Archive := attr_Archive (dm_Attributes dir);
                          Hidden := attr_Hidden (dm_Attributes dir);
                          ReadOnly := attr_ReadOnly (dm_Attributes dir);
                          SymbolicLink := attr_SymbolicLink (dm_Attributes dir);
                          Activated := false;
                          TimeStamp := dm_LocalTimeStamp dir |})
          end
        else
          match json_File E body with
          | inr e => ret (inr e)
          | inl f =>
              ret (inl {| Directory := file_Directory f;
                          Executable := attr_Executable (file_Attributes f);
                          Archive := attr_Archive (file_Attributes f);
                          Hidden := attr_Hidden (file_Attributes f);
                          ReadOnly := attr_ReadOnly (file_Attributes f);
                          SymbolicLink := attr_SymbolicLink (file_Attributes f);
                          Activated := attr_Activated (file_Attributes f);
                          TimeStamp := file_LocalTimeStamp f |})
          end
  end.

End Remote.

(** ** The filesystem adapter: data *)

Definition DefaultRemoteCacheSeconds : Z := 15.

(** Constants of [cgofuse/fuse]. *)
Definition ENOENT : Z := 2.
Definition S_IFDIR : Z := 16384.   (* 0040000 *)
Definition S_IFREG : Z := 32768.   (* 0100000 *)
Definition S_IRWXU : Z := 448.     (* 00700 *)

Record Timespec : Type := mkTimespec {
  Sec : Z;
  Nsec : Z
}.

(** [fuse.Stat_t]: the fields the adapter writes; the others stay zero. *)
Record Stat_t : Type := mkStat {
  Mode : Z;
  Uid : Z;
  Gid : Z;
  Size : Z;
  Atim : Timespec;
  Mtim : Timespec;
  Ctim : Timespec;
  Flags : Z
}.

Definition zero_Timespec : Timespec := {| Sec := 0; Nsec := 0 |}.

Definition zero_Stat : Stat_t :=
  {| Mode := 0; Uid := 0; Gid := 0; Size := 0; Atim := zero_Timespec;
     Mtim := zero_Timespec; Ctim := zero_Timespec; Flags := 0 |}.

Definition set_Mode (m : Z) (s : Stat_t) : Stat_t :=
  {| Mode := m; Uid := Uid s; Gid := Gid s; Size := Size s; Atim := Atim s;
     Mtim := Mtim s; Ctim := Ctim s; Flags := Flags s |}.

Definition set_Size (n : Z) (s : Stat_t) : Stat_t :=
  {| Mode := Mode s; Uid := Uid s; Gid := Gid s; Size := n; Atim := Atim s;
     Mtim := Mtim s; Ctim := Ctim s; Flags := Flags s |}.

Definition set_owner (uid gid : Z) (s : Stat_t) : Stat_t :=
  {| Mode := Mode s; Uid := uid; Gid := gid; Size := Size s; Atim := Atim s;
     Mtim := Mtim s; Ctim := Ctim s; Flags := Flags s |}.

Definition set_times (now : Timespec) (s : Stat_t) : Stat_t :=
  {| Mode := Mode s; Uid := Uid s; Gid := Gid s; Size := Size s; Atim := now;
     Mtim := now; Ctim := now; Flags := Flags s |}.

(** A pointer to a [fuse.Stat_t]. *)
Definition loc : Type := nat.

(** [CachedDirectory]: child name to the child's record. *)
Record CachedDirectory : Type := mkCachedDirectory {
  children : gmap string loc
}.

(** Modelled from the spec: a Cache Entry of the Attribute Cache and the
    Directory Cache, whose declarations ([StatCache], [DirectoryCache]) are
    in a file of package [fs] that is not among the sources. An entry is a
    value, the time it was recorded at and a time-to-live in seconds. *)
Record CacheEntry (V : Type) : Type := mkCacheEntry {
  ce_value : V;
  ce_stamp : Z;
  ce_ttl : Z
}.

Arguments mkCacheEntry {V} _ _ _.
Arguments ce_value {V} _.
Arguments ce_stamp {V} _.
Arguments ce_ttl {V} _.

(** Modelled from the spec: the validity of a Cache Entry, "valid if and
    only if current time - recorded timestamp < time-to-live"; the cache
    file itself is not among the sources. *)
Definition entry_valid {V} (now : Z) (e : CacheEntry V) : bool :=
  now - ce_stamp e <? ce_ttl e.

(** The [HanaFS] value ([net], the two caches, [notExistList]), the heap of
    attribute records it points into, and what [fuse] supplies to a call:
    the current time and the calling user and group. The operations read
    the clock; it advances between calls. *)
Record World : Type := mkWorld {
  net : Net;
  statCache : gmap string (CacheEntry loc);
  dirCache : gmap string (CacheEntry CachedDirectory);
  notExistList : list string;
  heap : gmap loc Stat_t;
  next_loc : loc;
  clock : Timespec;
  ctx_uid : Z;
  ctx_gid : Z
}.

Definition set_net (n : Net) (w : World) : World :=
  {| net := n; statCache := statCache w; dirCache := dirCache w;
     notExistList := notExistList w; heap := heap w; next_loc := next_loc w;
     clock := clock w; ctx_uid := ctx_uid w; ctx_gid := ctx_gid w |}.

Definition set_statCache (c : gmap string (CacheEntry loc)) (w : World) : World :=
  {| net := net w; statCache := c; dirCache := dirCache w;
     notExistList := notExistList w; heap := heap w; next_loc := next_loc w;
     clock := clock w; ctx_uid := ctx_uid w; ctx_gid := ctx_gid w |}.

Definition set_dirCache (c : gmap string (CacheEntry CachedDirectory)) (w : World) : World :=
  {| net := net w; statCache := statCache w; dirCache := c;
     notExistList := notExistList w; heap := heap w; next_loc := next_loc w;
     clock := clock w; ctx_uid := ctx_uid w; ctx_gid := ctx_gid w |}.

Definition set_notExistList (l : list string) (w : World) : World :=
  {| net := net w; statCache := statCache w; dirCache := dirCache w;
     notExistList := l; heap := heap w; next_loc := next_loc w;
     clock := clock w; ctx_uid := ctx_uid w; ctx_gid := ctx_gid w |}.

Definition set_heap (h : gmap loc Stat_t) (nx : loc) (w : World) : World :=
  {| net := net w; statCache := statCache w; dirCache := dirCache w;
     notExistList := notExistList w; heap := h; next_loc := nx;
     clock := clock w; ctx_uid := ctx_uid w; ctx_gid := ctx_gid w |}.

Definition set_clock (t : Timespec) (w : World) : World :=
  {| net := net w; statCache := statCache w; dirCache := dirCache w;
     notExistList := notExistList w; heap := heap w; next_loc := next_loc w;
     clock := t; ctx_uid := ctx_uid w; ctx_gid := ctx_gid w |}.

(** A call on [f.client]. *)
Definition on_client {A} (m : Comp Net A) : Comp World A :=
  fun w => match m (net w) with
           | Ret (a, n') => Ret (a, set_net n' w)
           | Panic p => Panic p
           end.

(** [&fuse.Stat_t{...}], [*p] and [*p = v]. *)
Definition new_Stat (v : Stat_t) : Comp World loc :=
  fun w => Ret (next_loc w, set_heap (<[next_loc w := v]> (heap w)) (S (next_loc w)) w).

Definition load (p : loc) : Comp World Stat_t :=
  fun w => match heap w !! p with
           | Some v => Ret (v, w)
           | None => Panic nil_dereference
           end.

Definition store (p : loc) (v : Stat_t) : Comp World unit :=
  modify (fun w => set_heap (<[p := v]> (heap w)) (next_loc w) w).

Definition update (p : loc) (f : Stat_t -> Stat_t) : Comp World unit :=
  let* v := load p in store p (f v).

Definition fuse_Now : Comp World Timespec := fun w => Ret (clock w, w).

Definition fuse_Getcontext : Comp World (Z * Z) := fun w => Ret ((ctx_uid w, ctx_gid w), w).

(** ** The negative-existence list *)

Fixpoint isNotExist_in (l : list string) (path : string) : bool :=
  match l with
  | [] => false
  | f :: r => if String.eqb f path then true else isNotExist_in r path
  end.

Definition isNotExist (path : string) : Comp World bool :=
  fun w => Ret (isNotExist_in (notExistList w) path, w).

Definition notExist (path : string) : Comp World unit :=
  let* b := isNotExist path in
  if negb b then modify (fun w => set_notExistList (notExistList w ++ [path]) w)
  else ret tt.

(** A Go slice of strings: its backing array and its length. *)
Record GoSlice : Type := mkSlice {
  backing : list string;
  slen : nat
}.

Definition slice_of (l : list string) : GoSlice :=
  {| backing := l; slen := length l |}.

Definition slice_view (s : GoSlice) : list string := take (slen s) (backing s).

(** [append(s[:i], s[i+1:]...)]: the elements after [i] move one place down
    in the backing array, whose last place keeps its value; [s[i+1:]]
    panics when [i+1] exceeds the length. *)
Definition slice_delete (i : nat) (s : GoSlice) : Outcome GoSlice :=
  if (S i <=? slen s)%nat then
    Ret {| backing := take i (backing s)
                        ++ drop (S i) (take (slen s) (backing s))
                        ++ drop (slen s - 1) (backing s);
           slen := (slen s - 1)%nat |}
  else Panic slice_bounds_out_of_range.

(** The [range] loop of [removeFromNotExist]: it runs over the length the
    slice had when the loop began and reads element [i] of the backing
    array, while the body replaces [f.notExistList]. *)
Fixpoint remove_range (path : string) (todo i : nat) (s : GoSlice) : Outcome GoSlice :=
  match todo with
  | O => Ret s
  | S todo' =>
      match backing s !! i with
      | None => Panic slice_bounds_out_of_range
      | Some notExistPath =>
          if String.eqb notExistPath path then
            match slice_delete i s with
            | Ret s' => remove_range path todo' (S i) s'
            | Panic p => Panic p
            end
          else remove_range path todo' (S i) s
      end
  end.

Definition removeFromNotExist (path : string) : Comp World unit :=
  let* b := isNotExist path in
  if negb b then
    fun w =>
      match remove_range path (length (notExistList w)) 0 (slice_of (notExistList w)) with
      | Ret s => Ret (tt, set_notExistList (slice_view s) w)
      | Panic p => Panic p
      end
  else ret tt.

(** ** The caches *)

(** Modelled from the spec: [StatCache.PreStatCacheSeconds], the
    [PreloadWithTTL] of the Attribute Cache, which "unconditionally installs
    an entry, timestamped now, bypassing the provider"; the method is in
    the cache file, not among the sources. *)
Definition PreStatCacheSeconds (path : string) (v : loc) (ttl : Z) : Comp World unit :=
  modify (fun w =>
    set_statCache (<[path := mkCacheEntry v (Sec (clock w)) ttl]> (statCache w)) w).

(** Modelled from the spec: [DirectoryCache.PreDirectoryCacheSeconds], the
    [PreloadWithTTL] of the Directory Cache; the method is in the cache
    file, not among the sources. *)
Definition PreDirectoryCacheSeconds (path : string) (v : CachedDirectory) (ttl : Z)
  : Comp World unit :=
  modify (fun w =>
    set_dirCache (<[path := mkCacheEntry v (Sec (clock w)) ttl]> (dirCache w)) w).

(** Modelled from the spec: [StatCache.GetStat], the [Get] of the Attribute
    Cache: "if a valid (non-expired) entry exists, return it without
    contacting the provider. Otherwise invoke the provider function for
    path; on success, store the result with a fresh timestamp and the
    configured TTL and return it; on failure, propagate the provider's
    error without caching it". The method is in the cache file, not among
    the sources; the configured TTL is the default of 15 seconds. *)
Definition StatCache_GetStat (provider : string -> Comp World (loc + error))
    (path : string) : Comp World (loc + error) :=
  let* w := get in
  let miss :=
    let* r := provider path in
    match r with
    | inl v => PreStatCacheSeconds path v DefaultRemoteCacheSeconds >> ret (inl v)
    | inr e => ret (inr e)
    end in
  match statCache w !! path with
  | Some e => if entry_valid (Sec (clock w)) e then ret (inl (ce_value e)) else miss
  | None => miss
  end.

(** Modelled from the spec: [DirectoryCache.GetDir], the [Get] of the
    Directory Cache, with the same contract as the Attribute Cache's; the
    method is in the cache file, not among the sources. *)
Definition DirectoryCache_GetDir (provider : string -> Comp World (CachedDirectory + error))
    (path : string) : Comp World (CachedDirectory + error) :=
  let* w := get in
  let miss :=
    let* r := provider path in
    match r with
    | inl v => PreDirectoryCacheSeconds path v DefaultRemoteCacheSeconds >> ret (inl v)
    | inr e => ret (inr e)
    end in
  match dirCache w !! path with
  | Some e => if entry_valid (Sec (clock w)) e then ret (inl (ce_value e)) else miss
  | None => miss
  end.

(** ** The filesystem adapter: operations *)

(** [int64] arithmetic wraps around. *)
Definition wrap64 (z : Z) : Z := (z + 2 ^ 63) mod 2 ^ 64 - 2 ^ 63.

(** [s[lo:hi]] on a byte slice whose capacity is its length. *)
Definition slice_bytes {S} (s : list Byte.byte) (lo hi : Z) : Comp S (list Byte.byte) :=
  if (0 <=? lo) && (lo <=? hi) && (hi <=? Z.of_nat (length s))
  then ret (take (Z.to_nat (hi - lo)) (drop (Z.to_nat lo) s))
  else throw slice_bounds_out_of_range.

(** [copy(dst, src)]: the number of bytes copied and the new [dst]. *)
Definition copy (dst src : list Byte.byte) : nat * list Byte.byte :=
  let n := Nat.min (length dst) (length src) in
  (n, take n src ++ drop n dst).

Section Adapter.

Variable E : Env.

Definition getStat (path : string) : Comp World (loc + error) :=
  let* s := new_Stat zero_Stat in
  let* r := on_client (Stat E path) in
  match r with
  | inr err => ret (inr err)
  | inl hanaStat =>
      let* now := fuse_Now in
      let* (uid, gid) := fuse_Getcontext in
      update s (fun v => set_times now (set_owner uid gid v)) >>
      (if Directory hanaStat then update s (set_Mode (Z.lor S_IFDIR S_IRWXU))
       else
         update s (set_Mode (Z.lor S_IFREG S_IRWXU)) >>
         let* v := load s in
         if Size v =? 0 then
           let* c := on_client (ReadFile E path) in
           match c with
           | inl content => update s (set_Size (Z.of_nat (length content)))
           | inr _ => ret tt
           end
         else ret tt) >>
      PreStatCacheSeconds path s DefaultRemoteCacheSeconds >>
      ret (inl s)
  end.

(** The body of the loop of [getDir] for one child. *)
Definition getDir_child (path : string) (now : Timespec) (uid gid : Z)
    (rt : CachedDirectory) (hanaChild : Child) : Comp World CachedDirectory :=
  let* fsChildStat :=
    new_Stat {| Flags := 0; Uid := uid; Gid := gid; Ctim := now; Atim := now;
                Mtim := now; Mode := 0; Size := 0 |} in
  (if child_Directory hanaChild then
     update fsChildStat (set_Mode (Z.lor S_IFDIR S_IRWXU))
   else
     update fsChildStat (set_Mode (Z.lor S_IFREG S_IRWXU)) >>
     let* v := load fsChildStat in
     if Size v =? 0 then
       let* c := on_client (ReadFile E path) in
       match c with
       | inl content => update fsChildStat (set_Size (Z.of_nat (length content)))
       | inr _ => ret tt
       end
     else ret tt) >>
  let nodeName := Name hanaChild in
  let nodePath := ContentLocation hanaChild in
  let rt := {| children := <[nodeName := fsChildStat]> (children rt) |} in
  PreStatCacheSeconds nodePath fsChildStat DefaultRemoteCacheSeconds >>
  ret rt.

Fixpoint getDir_children (path : string) (now : Timespec) (uid gid : Z)
    (rt : CachedDirectory) (cs : list Child) : Comp World CachedDirectory :=
  match cs with
  | [] => ret rt
  | hanaChild :: cs' =>
      let* rt' := getDir_child path now uid gid rt hanaChild in
      getDir_children path now uid gid rt' cs'
  end.

Definition getDir (path : string) : Comp World (CachedDirectory + error) :=
  let rt := {| children := ∅ |} in
  let* r := on_client (ReadDirectory E path) in
  match r with
  | inr err => ret (inr err)
  | inl dir =>
      let* now := fuse_Now in
      let* (uid, gid) := fuse_Getcontext in
      let* rt := getDir_children path now uid gid rt (Children dir) in
      PreDirectoryCacheSeconds path rt DefaultRemoteCacheSeconds >>
      ret (inl rt)
  end.

(** [f.statCache.GetStat] and [f.dirCache.GetDir], with the providers that
    [NewHanaFS] installs. *)
Definition GetStat (path : string) : Comp World (loc + error) :=
  StatCache_GetStat getStat path.

Definition GetDir (path : string) : Comp World (CachedDirectory + error) :=
  DirectoryCache_GetDir getDir path.

(** [Getattr(path, s, fh)]: the status; on success [*s] holds the record. *)
Definition Getattr (path : string) (s : loc) : Comp World Z :=
  let* absent := isNotExist path in
  if absent then ret (- ENOENT)
  else
    let* r := GetStat path in
    match r with
    | inr _ => notExist path >> ret (- ENOENT)
    | inl stat =>
        let* v := load stat in
        (if Uid v =? 0 then
           let* (uid, gid) := fuse_Getcontext in
           update stat (set_owner uid gid)
         else ret tt) >>
        let* v := load stat in
        store s v >>
        ret 0
    end.

(** [Read(path, buff, ofst, fh)]: the count returned and the buffer. *)
Definition Read (path : string) (buff : list Byte.byte) (ofst : Z)
  : Comp World (Z * list Byte.byte) :=
  let* r := on_client (ReadFile E path) in
  match r with
  | inr _ => ret (- ENOENT, buff)
  | inl contents =>
      let endofst := wrap64 (ofst + Z.of_nat (length buff)) in
      let endofst :=
        if endofst >? Z.of_nat (length contents) then Z.of_nat (length contents)
        else endofst in
      if endofst <? ofst then ret (0, buff)
      else
        let* src := slice_bytes contents ofst endofst in
        let (n, buff') := copy buff src in
        ret (Z.of_nat n, buff')
  end.

End Adapter.

(** ** Construction and the remaining operations *)

Definition checkCredential (E : Env) : Comp Net (option error) :=
  let* r := fetchCSRFToken E in
  match r with
  | Some err => ret (Some err)
  | None => ret None
  end.

(** [checkURIValidate]: [net.LookupHost], given as [LookupHost] (its error,
    if any), is asked for [uri.Host]. *)
Definition checkURIValidate (LookupHost : string -> option error) (uri : URL)
  : option error :=
  match LookupHost (url_Host uri) with
  | Some err => Some err
  | None => None
  end.

(** NewClient for hana: the client or the error, over the requests sent. *)
Definition NewClient (E : Env) (LookupHost : string -> option error) (uri : URL)
  : Comp (list Request) (option Client * option error) :=
  fun history =>
    let rt := {| uri := uri; token := ""; sslVerify := true;
                 baseDirectory := url_Path uri |} in
    match checkURIValidate LookupHost uri with
    | Some err => Ret ((None, Some err), history)
    | None =>
        match checkCredential E {| client := rt; sent := history |} with
        | Ret (Some err, n) => Ret ((None, Some err), sent n)
        | Ret (None, n) => Ret ((Some (client n), None), sent n)
        | Panic p => Panic p
        end
    end.

(** The translation [Stat] applies to the body of the metadata document. *)
Definition PathStat_of_body (E : Env) (body : string) : PathStat + error :=
  if gjson_Directory E body then
    match json_DirectoryMeta E body with
    | inr e => inr e
    | inl dir =>
        inl {| Directory := dm_Directory dir;
               Executable := attr_Executable (dm_Attributes dir);
               Archive := attr_Archive (dm_Attributes dir);
               Hidden := attr_Hidden (dm_Attributes dir);
               ReadOnly := attr_ReadOnly (dm_Attributes dir);
               SymbolicLink := attr_SymbolicLink (dm_Attributes dir);
               Activated := false;
               TimeStamp := dm_LocalTimeStamp dir |}
    end
  else
    match json_File E body with
    | inr e => inr e
    | inl f =>
        inl {| Directory := file_Directory f;
               Executable := attr_Executable (file_Attributes f);
               Archive := attr_Archive (file_Attributes f);
               Hidden := attr_Hidden (file_Attributes f);
               ReadOnly := attr_ReadOnly (file_Attributes f);
               SymbolicLink := attr_SymbolicLink (file_Attributes f);
               Activated := attr_Activated (file_Attributes f);
               TimeStamp := file_LocalTimeStamp f |}
    end.

(** [res.ToString()] with its error dropped, as [Stat] uses it. *)
Definition body_string (r : Resp) : string :=
  match resp_body r with
  | inl b => string_of_list_byte b
  | inr _ => ""%string
  end.

(** [Readdir(path, fill, ofst, fh)]: the status and the calls of [fill],
    each a name, a record and the offset 0; what [fill] returns is not
    read. Go ranges over the map in no fixed order: the list is one order,
    and statements about it hold for every order. *)
Definition Readdir (E : Env) (path : string) : Comp World (Z * list (string * loc * Z)) :=
  let* r := GetDir E path in
  match r with
  | inr _ => ret (- ENOENT, [])
  | inl dir =>
      ret (0, (fun kv : string * loc => (kv.1, kv.2, 0)) <$> map_to_list (children dir))
  end.

Definition Release (path : string) (fh : Z) : Comp World Z := ret 0.

Definition Open (path : string) (flags : Z) : Comp World (Z * Z) := ret (0, 0).

Definition Chflags (path : string) (flags : Z) : Comp World Z := ret 0.

Definition Setcrtime (path : string) (tmsp : Timespec) : Comp World Z := ret 0.

Definition Setchgtime (path : string) (tmsp : Timespec) : Comp World Z := ret 0.

(** The calling user and group change between calls. *)
Definition set_context (uid gid : Z) (w : World) : World :=
  {| net := net w; statCache := statCache w; dirCache := dirCache w;
     notExistList := notExistList w; heap := heap w; next_loc := next_loc w;
     clock := clock w; ctx_uid := uid; ctx_gid := gid |}.

(** What the bridging layer does to a mounted filesystem: it calls an
    operation, as some user at some time. *)
Inductive Call : Type :=
| CallGetattr (path : string) (s : loc)
| CallReaddir (path : string)
| CallRead (path : string) (buff : list Byte.byte) (ofst : Z)
| CallOpen (path : string) (flags : Z)
| CallRelease (path : string) (fh : Z)
| CallChflags (path : string) (flags : Z)
| CallSetcrtime (path : string) (tmsp : Timespec)
| CallSetchgtime (path : string) (tmsp : Timespec)
| Elapse (now : Timespec)
| CalledBy (uid gid : Z).

Definition run_call (E : Env) (c : Call) : Comp World unit :=
  match c with
  | CallGetattr path s => Getattr E path s >> ret tt
  | CallReaddir path => Readdir E path >> ret tt
  | CallRead path buff ofst => Read E path buff ofst >> ret tt
  | CallOpen path flags => Open path flags >> ret tt
  | CallRelease path fh => Release path fh >> ret tt
  | CallChflags path flags => Chflags path flags >> ret tt
  | CallSetcrtime path tmsp => Setcrtime path tmsp >> ret tt
  | CallSetchgtime path tmsp => Setchgtime path tmsp >> ret tt
  | Elapse now => modify (set_clock now)
  | CalledBy uid gid => modify (set_context uid gid)
  end.

Fixpoint run_calls (E : Env) (cs : list Call) : Comp World unit :=
  match cs with
  | [] => ret tt
  | c :: r => run_call E c >> run_calls E r
  end.

(** A computation that only appends to the negative-existence list. *)
Definition extends_list {A} (m : Comp World A) : Prop :=
  forall w a w', m w = Ret (a, w') ->
    exists l, notExistList w' = notExistList w ++ l.

(** ** A remote service to run the operations against *)

Module Demo.

Local Open Scope string_scope.

Definition auth (user password : string) : string :=
  "Basic " +:+ user +:+ ":" +:+ password.

(** The token a request carries: the [x-csrf-token] of its header. *)
Fixpoint sent_token (infos : list Info) : string :=
  match infos with
  | [] => ""
  | Header h :: _ => Header_Get h keyCSRFTokenHeader
  | QueryParam _ :: r => sent_token r
  end.

Fixpoint has_query (infos : list Info) : bool :=
  match infos with
  | [] => false
  | QueryParam _ :: _ => true
  | Header _ :: r => has_query r
  end.

Definition ok (body : string) : Reply :=
  Answered {| Response := {| StatusCode := 200; resp_Header := [] |};
              resp_body := inl (list_byte_of_string body) |}.

Definition status (code : Z) (h : list (string * string)) : Reply :=
  Answered {| Response := {| StatusCode := code; resp_Header := h |};
              resp_body := inl [] |}.

Definition base : string := "https://hana.example:443".

(** The repository holds the directory [/parent] with the file [a] (3
    bytes) and the directory [b], and the file [/f] (5 bytes). It issues the
    token ["T1"] to a handshake and demands a fresh token from a request
    carrying any other; [/down] is unreachable. *)
Definition files (url : string) (query : bool) : Reply :=
  if String.eqb url (base +:+ file_prefix +:+ "/parent") then
    if query then ok "LISTING" else ok "0123456789"
  else if String.eqb url (base +:+ file_prefix +:+ "/parent/a") then
    if query then ok "FILE" else ok "abc"
  else if String.eqb url (base +:+ file_prefix +:+ "/parent/b") then ok "DIR"
  else if String.eqb url (base +:+ file_prefix +:+ "/f") then
    if query then ok "FILE" else ok "hello"
  else status 404 [].

Definition reachable (history : list Request) (rq : Request) : Reply :=
  if String.eqb (rq_method rq) "HEAD" then status 200 [("X-Csrf-Token", "T1")]
  else if negb (String.eqb (sent_token (rq_infos rq)) "T1") then
    status 403 [("X-Csrf-Token", "Required")]
  else files (rq_url rq) (has_query (rq_infos rq)).

Definition service (history : list Request) (rq : Request) : Reply :=
  if String.eqb (rq_url rq) (base +:+ file_prefix +:+ "/down") then
    TransportError (library_error "dial tcp: connection refused")
  else reachable history rq.

(** A service that demands a token and issues none. *)
Definition locked_service (history : list Request) (rq : Request) : Reply :=
  if String.eqb (rq_method rq) "HEAD" then status 401 [("X-Csrf-Token", "unsafe")]
  else status 403 [("X-Csrf-Token", "Required")].

(** The same repository, where [/parent/a] does not exist yet when the
    first request arrives. *)
Definition late_service (history : list Request) (rq : Request) : Reply :=
  match history with
  | [] => status 404 []
  | _ => service history rq
  end.

Definition listing : DirectoryDetail :=
  {| Children := [ {| Name := "a"; ContentLocation := "/parent/a"; child_Directory := false |};
                   {| Name := "b"; ContentLocation := "/parent/b"; child_Directory := true |} ] |}.

Definition no_attributes : Attributes :=
  {| attr_Executable := false; attr_Archive := false; attr_Hidden := false;
     attr_ReadOnly := false; attr_SymbolicLink := false; attr_Activated := false |}.

Definition env_of (r : list Request -> Request -> Reply) : Env :=
  {| remote := r;
     basicAuth := auth;
     json_DirectoryDetail := fun b =>
       if String.eqb (string_of_list_byte b) "LISTING" then inl listing
       else inr (library_error "invalid character");
     gjson_Directory := fun body => String.eqb body "DIR";
     json_DirectoryMeta := fun body =>
       if String.eqb body "DIR" then
         inl {| dm_Directory := true; dm_Attributes := no_attributes;
                dm_LocalTimeStamp := 0 |}
       else inr (library_error "invalid character");
     json_File := fun body =>
       if String.eqb body "FILE" then
         inl {| file_Directory := false; file_Attributes := no_attributes;
                file_LocalTimeStamp := 0 |}
       else inr (library_error "invalid character") |}.

Definition env : Env := env_of service.
Definition late_env : Env := env_of late_service.
Definition reachable_env : Env := env_of reachable.
Definition locked_env : Env := env_of locked_service.

Definition client_with (tok : string) : Client :=
  {| uri := {| url_Hostname := "hana.example"; url_Port := ""; url_Username := "SYSTEM";
               url_Password := "secret"; url_Path := "/" |};
     token := tok; sslVerify := true; baseDirectory := "/" |}.

Definition net_with (tok : string) : Net := {| client := client_with tok; sent := [] |}.

(** A freshly mounted filesystem whose client holds the token [tok], at
    second 1000, called by user 1000 of group 100. *)
Definition world_with (tok : string) : World :=
  {| net := net_with tok; statCache := ∅; dirCache := ∅; notExistList := [];
     heap := ∅; next_loc := 0%nat; clock := {| Sec := 1000; Nsec := 0 |};
     ctx_uid := 1000; ctx_gid := 100 |}.

(** The world a call leaves behind. *)
Definition after {A} (o : Outcome (A * World)) (w : World) : World :=
  match o with
  | Ret (_, w') => w'
  | Panic _ => w
  end.

(** The same world, called by another user. *)
Definition as_user (uid gid : Z) (w : World) : World :=
  {| net := net w; statCache := statCache w; dirCache := dirCache w;
     notExistList := notExistList w; heap := heap w; next_loc := next_loc w;
     clock := clock w; ctx_uid := uid; ctx_gid := gid |}.

(** [/f] was looked up by root; user 1000 calls next. *)
Definition cached_by_root : World :=
  as_user 1000 100
    (after (Getattr env "/f" 9%nat (as_user 0 0 (world_with "T1")))
           (world_with "T1")).

(** [/parent/a] was looked up before it existed. *)
Definition looked_up_early : World :=
  after (Getattr late_env "/parent/a" 9%nat (world_with "T1")) (world_with "T1").

(** Then [/parent] was listed. *)
Definition then_listed : World :=
  after (getDir late_env "/parent" looked_up_early) looked_up_early.

(** A service whose third round trip fails. *)
Definition flaky_service (history : list Request) (rq : Request) : Reply :=
  match history with
  | [_; _] => TransportError (library_error "read: connection reset by peer")
  | _ => reachable history rq
  end.

Definition flaky_env : Env := env_of flaky_service.

(** A resolver that knows one host. *)
Definition resolves (host : string) : option error :=
  if String.eqb host "hana.example" then None
  else Some (library_error "lookup: no such host").

Definition example_uri : URL :=
  {| url_Hostname := "hana.example"; url_Port := ""; url_Username := "SYSTEM";
     url_Password := "secret"; url_Path := "/" |}.

(** A repository whose directory [/parent] holds directories only. *)
Definition directories : DirectoryDetail :=
  {| Children := [ {| Name := "b"; ContentLocation := "/parent/b"; child_Directory := true |};
                   {| Name := "c"; ContentLocation := "/parent/c"; child_Directory := true |};
                   {| Name := "b"; ContentLocation := "/parent/b"; child_Directory := true |} ] |}.

Definition directories_env : Env :=
  {| remote := reachable;
     basicAuth := auth;
     json_DirectoryDetail := fun _ => inl directories;
     gjson_Directory := gjson_Directory env;
     json_DirectoryMeta := json_DirectoryMeta env;
     json_File := json_File env |}.

(** A service that answers every request with an internal error. *)
Definition failing_service (history : list Request) (rq : Request) : Reply :=
  Answered {| Response := {| StatusCode := 500; resp_Header := [] |};
              resp_body := inl (list_byte_of_string "Internal Server Error") |}.

Definition failing_env : Env := env_of failing_service.

(** The client and the requests a call leaves behind. *)
Definition net_after {A} (o : Outcome (A * Net)) (n : Net) : Net :=
  match o with
  | Ret (_, n') => n'
  | Panic _ => n
  end.

(** A service whose answers break off while the body is read. *)
Definition truncated_service (history : list Request) (rq : Request) : Reply :=
  Answered {| Response := {| StatusCode := 200; resp_Header := [] |};
              resp_body := inr (library_error "unexpected EOF") |}.

Definition truncated_env : Env := env_of truncated_service.

End Demo.

(** ** Requests and runs the statements speak of *)

(** The request that [request] builds from the client's current token. *)
Definition request_sent (E : Env) (c : Client) (method path : string)
    (infos : list Info) : Request :=
  mkRequest method (formatURI c path) (infos ++ [auth_header E c (token c)]).

(** The request of the token-refresh handshake. *)
Definition handshake_request (E : Env) (c : Client) : Request :=
  mkRequest "HEAD" (formatURI c info_path) [auth_header E c "fetch"].

(** What [req.Do] hands back for a reply. *)
Definition as_go_pair (r : Reply) : option Resp * option error :=
  match r with
  | Answered resp => (Some resp, None)
  | TransportError e => (None, Some e)
  end.

(** The error of a failed handshake, by response status. *)
Definition handshake_error (status : Z) : error :=
  if (300 <=? status) && (status <? 400)
  then errors_New "redirect, please check your credential"
  else if (400 <=? status) && (status <? 500)
  then errors_New "request is not accepted"
  else if (500 <=? status) && (status <? 600)
  then errors_New "server is down"
  else errors_New "could not fetch csrf token, please check your credential".

(** Operations on the negative-existence list, and a run of them. *)
Inductive ListOp : Type :=
| Add (path : string)
| Remove (path : string).

Definition run_op (op : ListOp) : Comp World unit :=
  match op with
  | Add path => notExist path
  | Remove path => removeFromNotExist path
  end.

Fixpoint run_ops (ops : list ListOp) : Comp World unit :=
  match ops with
  | [] => ret tt
  | op :: r => run_op op >> run_ops r
  end.

(** A computation that leaves the negative-existence list, the clock and
    the calling context as they were. *)
Definition keeps_frame {A} (m : Comp World A) : Prop :=
  forall w a w', m w = Ret (a, w') ->
    notExistList w' = notExistList w /\ clock w' = clock w /\
    ctx_uid w' = ctx_uid w /\ ctx_gid w' = ctx_gid w.

(** A remote service that answers every request: no round trip fails. *)
Definition answers (E : Env) : Prop :=
  forall history rq, exists r, remote E history rq = Answered r.

(** [spells s t]: [s] is the text [t] with some of its lower-case letters
    (bytes 97 to 122) written in upper case (32 less). *)
Inductive spells : string -> string -> Prop :=
| spells_nil : spells EmptyString EmptyString
| spells_same c s t : spells s t -> spells (String c s) (String c t)
| spells_upper c s t :
    (97 <= nat_of_ascii c <= 122)%nat ->
    spells s t ->
    spells (String (ascii_of_nat (nat_of_ascii c - 32)) s) (String c t).

(** * Properties *)

Section ClientProperties.

Variable E : Env.

Lemma req_Do_eq method url infos n :
  req_Do E method url infos n =
  Ret (as_go_pair (remote E (sent n) (mkRequest method url infos)),
       {| client := client n; sent := mkRequest method url infos :: sent n |}).
Proof. unfold req_Do, as_go_pair. by destruct (remote E _ _). Qed.

Lemma token_test_true (tok : string) :
  negb (String.length tok =? 0)%nat && negb (String.eqb tok "unsafe") = true
  <-> tok <> ""%string /\ tok <> "unsafe"%string.
Proof.
  rewrite andb_true_iff, !negb_true_iff, String.eqb_neq, Nat.eqb_neq.
  split; intros [H1 H2]; split; auto.
  - intros ->. by apply H1.
  - destruct tok; [done | simpl; lia].
Qed.

(** The handshake, once the remote service has answered it. *)
Lemma fetchCSRFToken_answered n r :
  remote E (sent n) (handshake_request E (client n)) = Answered r ->
  let tok := Header_Get (resp_Header (Response r)) "x-csrf-token" in
  let n1 := {| client := client n; sent := handshake_request E (client n) :: sent n |} in
  fetchCSRFToken E n =
    if negb (String.length tok =? 0)%nat && negb (String.eqb tok "unsafe")
    then Ret (None, set_client (set_token tok (client n)) n1)
    else Ret (Some (handshake_error (StatusCode (Response r))), n1).
Proof.
  intros H tok n1.
  unfold fetchCSRFToken, bind, get. rewrite req_Do_eq.
  fold (handshake_request E (client n)). rewrite H. simpl.
  fold tok. destruct (negb _ && negb _); [done |].
  unfold handshake_error.
  by repeat (match goal with |- context [if ?b then _ else _] => destruct b end).
Qed.

(** C7. The token-refresh handshake, when the remote service answers it,
    succeeds if and only if the [x-csrf-token] value of the response is
    non-empty and not ["unsafe"], and then the client's token is that
    value and its other fields are as before; otherwise it leaves the
    client as it was and fails with
    the error of the response status: 3xx redirect (credential), 4xx request
    not accepted, 5xx server down, any other status the generic
    token-fetch error. *)
Theorem fetchCSRFToken_succeeds_iff_token_valid n r :
  remote E (sent n) (handshake_request E (client n)) = Answered r ->
  let tok := Header_Get (resp_Header (Response r)) "x-csrf-token" in
  let status := StatusCode (Response r) in
  exists res n',
    fetchCSRFToken E n = Ret (res, n') /\
    sent n' = handshake_request E (client n) :: sent n /\
    (res = None <-> tok <> ""%string /\ tok <> "unsafe"%string) /\
    (res = None ->
       token (client n') = tok /\ uri (client n') = uri (client n) /\
       sslVerify (client n') = sslVerify (client n) /\
       baseDirectory (client n') = baseDirectory (client n)) /\
    (res <> None ->
       client n' = client n /\
       (300 <= status < 400 ->
          res = Some (errors_New "redirect, please check your credential")) /\
       (400 <= status < 500 -> res = Some (errors_New "request is not accepted")) /\
       (500 <= status < 600 -> res = Some (errors_New "server is down")) /\
       (~ 300 <= status < 600 ->
          res = Some (errors_New
                        "could not fetch csrf token, please check your credential"))).
Proof.
  intros H tok status.
  rewrite (fetchCSRFToken_answered n r H). fold tok.
  destruct (negb (String.length tok =? 0)%nat && negb (String.eqb tok "unsafe"))
    eqn:Hv.
  - eexists _, _. split; [reflexivity |]. split; [done |].
    split; [by rewrite <- token_test_true |]. split; [done |]. done.
  - eexists _, _. split; [reflexivity |]. split; [done |].
    split.
    { split; [done |]. intros Hok. apply token_test_true in Hok. congruence. }
    split; [done |]. intros _. split; [done |].
    unfold handshake_error. fold status.
    repeat split; intros Hs;
      repeat (match goal with
              | |- context [(?a <=? ?b)] => destruct (Z.leb_spec a b)
              | |- context [(?a <? ?b)] => destruct (Z.ltb_spec a b)
              end; simpl; try lia); reflexivity.
Qed.

(** C10. When the round trip of the request fails at the transport level,
    [req.Do] hands back a nil response; [request] calls [Response()] on it
    before it looks at the error, so the call panics with a nil dereference
    and the transport error never reaches the caller. *)
Theorem request_transport_error_panics method path infos n e :
  remote E (sent n) (request_sent E (client n) method path infos) = TransportError e ->
  request E method path infos n = Panic nil_dereference.
Proof.
  intros H. unfold request, bind, get. rewrite req_Do_eq.
  fold (request_sent E (client n) method path infos). by rewrite H.
Qed.

(** C1. When the answer to a request is the token-required signal and the
    handshake then yields a token, [request] sends exactly three requests:
    the original one, one handshake, and one retry; the caller receives what
    the retry yields and the client holds the new token. The retry is the
    original request unchanged: its header was built before the handshake
    and carries the token the client held then, not the new one. *)
Theorem request_retry_resends_old_header method path infos n r1 r2 :
  let rq := request_sent E (client n) method path infos in
  let hs := handshake_request E (client n) in
  let tok := Header_Get (resp_Header (Response r2)) "x-csrf-token" in
  remote E (sent n) rq = Answered r1 ->
  isCSRFTokenError (Response r1) = true ->
  remote E (rq :: sent n) hs = Answered r2 ->
  tok <> ""%string -> tok <> "unsafe"%string ->
  request E method path infos n =
    Ret (as_go_pair (remote E (hs :: rq :: sent n) rq),
         {| client := set_token tok (client n);
            sent := rq :: hs :: rq :: sent n |}) /\
  last (rq_infos rq) = Some (auth_header E (client n) (token (client n))).
Proof.
  intros rq hs tok H1 Hcsrf H2 Hne Hun. split.
  - unfold request, bind, get. rewrite req_Do_eq.
    fold (request_sent E (client n) method path infos). fold rq.
    rewrite H1. simpl. rewrite Hcsrf.
    unfold bind.
    rewrite (fetchCSRFToken_answered _ r2); simpl; [| exact H2].
    fold tok.
    assert (Hv : negb (String.length tok =? 0)%nat && negb (String.eqb tok "unsafe") = true)
      by (by apply token_test_true).
    rewrite Hv. rewrite req_Do_eq. simpl.
    change (mkRequest method (formatURI (client n) path)
              (infos ++ [auth_header E (client n) (token (client n))])) with rq.
    fold hs.
    by destruct (remote E (hs :: rq :: sent n) rq).
  - unfold rq, request_sent. simpl. by rewrite last_snoc.
Qed.

(** X1. A request whose answer is not the token-required signal is sent
    once: the caller receives that answer, whatever its status, and the
    client is unchanged. *)
Theorem request_without_signal_sent_once method path infos n r :
  remote E (sent n) (request_sent E (client n) method path infos) = Answered r ->
  isCSRFTokenError (Response r) = false ->
  request E method path infos n =
    Ret ((Some r, None),
         {| client := client n;
            sent := request_sent E (client n) method path infos :: sent n |}).
Proof.
  intros H Hno. unfold request, bind, get. rewrite req_Do_eq.
  fold (request_sent E (client n) method path infos). rewrite H. simpl.
  by rewrite Hno.
Qed.

(** X2. When the handshake that follows the token-required signal is
    answered without a usable token, [request] returns the handshake's
    error and sends nothing more: the original request is not retried and
    the client keeps its token. *)
Theorem request_handshake_failure_not_retried method path infos n r1 r2 :
  let rq := request_sent E (client n) method path infos in
  let hs := handshake_request E (client n) in
  let tok := Header_Get (resp_Header (Response r2)) "x-csrf-token" in
  remote E (sent n) rq = Answered r1 ->
  isCSRFTokenError (Response r1) = true ->
  remote E (rq :: sent n) hs = Answered r2 ->
  tok = ""%string \/ tok = "unsafe"%string ->
  request E method path infos n =
    Ret ((None, Some (handshake_error (StatusCode (Response r2)))),
         {| client := client n; sent := hs :: rq :: sent n |}).
Proof.
  intros rq hs tok H1 Hcsrf H2 Hbad.
  unfold request, bind, get. rewrite req_Do_eq.
  fold (request_sent E (client n) method path infos). fold rq.
  rewrite H1. simpl. rewrite Hcsrf. unfold bind.
  rewrite (fetchCSRFToken_answered _ r2); simpl; [| exact H2].
  fold tok.
  assert (Hv : negb (String.length tok =? 0)%nat && negb (String.eqb tok "unsafe") = false).
  { destruct (negb _ && negb _) eqn:Hv; [| done].
    apply token_test_true in Hv. destruct Hv, Hbad; congruence. }
  by rewrite Hv.
Qed.

(** Against a service that answers every request, [request] returns:
    a response, or the error of a failed handshake. *)
Lemma request_returns method path infos n :
  answers E ->
  exists res n',
    request E method path infos n = Ret (res, n') /\
    ((exists r, res = (Some r, None)) \/ (exists e, res = (None, Some e))).
Proof.
  intros Hans. unfold request, bind, get. rewrite req_Do_eq.
  destruct (Hans (sent n) (mkRequest method (formatURI (client n) path)
                             (infos ++ [auth_header E (client n) (token (client n))])))
    as [r1 H1].
  rewrite H1. simpl.
  destruct (isCSRFTokenError (Response r1)); [| by eauto 6].
  unfold bind.
  match goal with
  | |- context [fetchCSRFToken E ?n1] =>
      destruct (Hans (sent n1) (handshake_request E (client n1))) as [r2 H2];
      rewrite (fetchCSRFToken_answered n1 r2 H2)
  end.
  destruct (negb _ && negb _); [| by eauto 6].
  rewrite req_Do_eq.
  match goal with
  | |- context [remote E ?h ?rq] => destruct (Hans h rq) as [r3 H3]; rewrite H3
  end.
  simpl. eauto 6.
Qed.

Lemma ReadFile_returns filePath n :
  answers E -> exists r n', ReadFile E filePath n = Ret (r, n').
Proof.
  intros Hans. unfold ReadFile, bind.
  destruct (request_returns "GET" (file_prefix +:+ filePath)%string [] n Hans)
    as (res & n' & -> & [[r ->] | [e ->]]); simpl; [| by eauto].
  destruct (StatusCode (Response r) =? 404); by eauto.
Qed.

End ClientProperties.

(** ** The negative-existence list *)

Lemma isNotExist_in_true l path : isNotExist_in l path = true <-> path ∈ l.
Proof.
  induction l as [| f r IH]; simpl.
  - split; [done | by intros ?%elem_of_nil].
  - rewrite elem_of_cons. destruct (String.eqb_spec f path) as [-> | Hne].
    + split; auto.
    + rewrite IH. split; [auto | intros [? | ?]; congruence].
Qed.

Lemma isNotExist_in_false l path : isNotExist_in l path = false <-> path ∉ l.
Proof.
  rewrite <- isNotExist_in_true. by destruct (isNotExist_in l path).
Qed.

Lemma set_notExistList_same w : set_notExistList (notExistList w) w = w.
Proof. by destruct w. Qed.

(** On a slice that does not hold [path] the loop changes nothing. *)
Lemma remove_range_absent path todo : forall i s,
  path ∉ backing s -> (i + todo <= length (backing s))%nat ->
  remove_range path todo i s = Ret s.
Proof.
  induction todo as [| todo IH]; intros i s Hnot Hlen; simpl; [done |].
  destruct (backing s !! i) as [x |] eqn:Hx.
  - destruct (String.eqb_spec x path) as [-> | Hne].
    + exfalso. apply Hnot. by eapply list_elem_of_lookup_2.
    + apply IH; [done | lia].
  - apply lookup_ge_None in Hx. lia.
Qed.

Lemma slice_view_of l : slice_view (slice_of l) = l.
Proof. unfold slice_view, slice_of. simpl. by rewrite firstn_all. Qed.

(** The guard of [removeFromNotExist] lets the loop run only on a list that
    does not hold [path]: the call returns with the world as it was. *)
Lemma removeFromNotExist_eq path w :
  removeFromNotExist path w = Ret (tt, w).
Proof.
  unfold removeFromNotExist, bind, isNotExist.
  destruct (isNotExist_in (notExistList w) path) eqn:Hin; simpl; [done |].
  apply isNotExist_in_false in Hin.
  rewrite remove_range_absent; [| done | simpl; lia].
  by rewrite slice_view_of, set_notExistList_same.
Qed.

(** C3. [removeFromNotExist] removes nothing: whatever the list and the
    path, the call returns and leaves the list as it was, so a path that
    was in the list, once or several times, is in it as often afterwards;
    the path is absent after the call only if it was absent before. *)
Theorem removeFromNotExist_removes_nothing path w :
  exists w',
    removeFromNotExist path w = Ret (tt, w') /\
    notExistList w' = notExistList w /\
    isNotExist_in (notExistList w') path = isNotExist_in (notExistList w) path.
Proof.
  unfold removeFromNotExist, bind, isNotExist.
  destruct (isNotExist_in (notExistList w) path) eqn:Hin; simpl.
  - (* the path is in the list: the guard skips the loop *)
    by exists w.
  - (* the path is not in the list: the loop runs and finds no match *)
    assert (Habsent : path ∉ notExistList w) by (by apply isNotExist_in_false).
    rewrite remove_range_absent; [| done | simpl; lia].
    rewrite slice_view_of, set_notExistList_same. by exists w.
Qed.

Lemma notExist_eq path w :
  notExist path w =
    Ret (tt, if isNotExist_in (notExistList w) path then w
             else set_notExistList (notExistList w ++ [path]) w).
Proof.
  unfold notExist, bind, isNotExist.
  by destruct (isNotExist_in (notExistList w) path).
Qed.

Lemma run_ops_NoDup ops : forall w,
  NoDup (notExistList w) ->
  exists w', run_ops ops w = Ret (tt, w') /\ NoDup (notExistList w').
Proof.
  induction ops as [| op r IH]; intros w Hnd; simpl.
  - by exists w.
  - unfold bind. destruct op as [path | path]; simpl.
    + rewrite notExist_eq.
      destruct (isNotExist_in (notExistList w) path) eqn:Hin; [by apply IH |].
      apply IH. simpl. apply isNotExist_in_false in Hin.
      apply NoDup_app. split; [done |]. split; [| apply NoDup_singleton].
      intros x Hx ->%list_elem_of_singleton. done.
    + rewrite removeFromNotExist_eq. by apply IH.
Qed.

(** C9. Starting from the empty list, any sequence of [notExist] and
    [removeFromNotExist] calls runs to its end and leaves a list without
    duplicates: every path occurs in it at most once. *)
Theorem notExistList_has_no_duplicates ops w :
  notExistList w = [] ->
  exists w', run_ops ops w = Ret (tt, w') /\ NoDup (notExistList w').
Proof.
  intros Hempty. apply run_ops_NoDup. rewrite Hempty. apply NoDup_nil_2.
Qed.

(** ** Frame: what the cache lookups leave alone *)

Lemma keeps_ret {A} (a : A) : keeps_frame (ret a).
Proof. intros w a' w' [= <- <-]. done. Qed.

Lemma keeps_bind {A B} (m : Comp World A) (k : A -> Comp World B) :
  keeps_frame m -> (forall a, keeps_frame (k a)) -> keeps_frame (bind m k).
Proof.
  intros Hm Hk w b w'. unfold bind.
  destruct (m w) as [[a w1] |] eqn:Hmw; [| done].
  intros Hkw. destruct (Hm _ _ _ Hmw) as (? & ? & ? & ?).
  destruct (Hk _ _ _ _ Hkw) as (? & ? & ? & ?).
  repeat split; congruence.
Qed.

Lemma keeps_on_client {A} (m : Comp Net A) : keeps_frame (on_client m).
Proof.
  intros w a w'. unfold on_client.
  destruct (m (net w)) as [[a' n'] |]; [| done]. by intros [= <- <-].
Qed.

Lemma keeps_new_Stat v : keeps_frame (new_Stat v).
Proof. intros w a w' [= <- <-]. done. Qed.

Lemma keeps_load p : keeps_frame (load p).
Proof.
  intros w a w'. unfold load. destruct (heap w !! p); [| done].
  by intros [= <- <-].
Qed.

Lemma keeps_store p v : keeps_frame (store p v).
Proof. intros w a w' [= <- <-]. done. Qed.

Lemma keeps_update p f : keeps_frame (update p f).
Proof.
  apply keeps_bind; [apply keeps_load | intros; apply keeps_store].
Qed.

Lemma keeps_fuse_Now : keeps_frame fuse_Now.
Proof. intros w a w' [= <- <-]. done. Qed.

Lemma keeps_fuse_Getcontext : keeps_frame fuse_Getcontext.
Proof. intros w a w' [= <- <-]. done. Qed.

Lemma keeps_get : keeps_frame get.
Proof. intros w a w' [= <- <-]. done. Qed.

Lemma keeps_PreStatCacheSeconds path v ttl :
  keeps_frame (PreStatCacheSeconds path v ttl).
Proof. intros w a w' [= <- <-]. done. Qed.

Ltac keeps_step :=
  first
    [ apply keeps_ret | apply keeps_on_client | apply keeps_new_Stat
    | apply keeps_load | apply keeps_store | apply keeps_update
    | apply keeps_fuse_Now | apply keeps_fuse_Getcontext | apply keeps_get
    | apply keeps_PreStatCacheSeconds
    | apply keeps_bind; [| intros ?]
    | match goal with
      | |- keeps_frame (match ?x with _ => _ end) => destruct x
      end ].

Lemma keeps_getStat E path : keeps_frame (getStat E path).
Proof. unfold getStat. repeat keeps_step. Qed.

Lemma keeps_GetStat E path : keeps_frame (GetStat E path).
Proof.
  unfold GetStat, StatCache_GetStat.
  apply keeps_bind; [apply keeps_get | intros w].
  assert (Hmiss : keeps_frame
            (let* r := getStat E path in
             match r with
             | inl v => PreStatCacheSeconds path v DefaultRemoteCacheSeconds >> ret (inl v)
             | inr e => ret (inr e)
             end)).
  { apply keeps_bind; [apply keeps_getStat | intros r]. repeat keeps_step. }
  destruct (statCache w !! path) as [e |]; [| done].
  destruct (entry_valid _ e); [apply keeps_ret | done].
Qed.

(** ** [Getattr] *)

Section GetattrProperties.

Variable E : Env.

Lemma isNotExist_in_snoc l path : isNotExist_in (l ++ [path]) path = true.
Proof. apply isNotExist_in_true, elem_of_app. right. by apply list_elem_of_singleton. Qed.

(** A path in the list is answered from the list alone. *)
Lemma Getattr_listed path s w :
  isNotExist_in (notExistList w) path = true ->
  Getattr E path s w = Ret (- ENOENT, w).
Proof. intros H. unfold Getattr, bind, isNotExist. by rewrite H. Qed.

(** C4. [Getattr] on a path of the negative-existence list returns
    [-ENOENT] and leaves the world, hence the requests sent, as it was.
    On a path that is not in the list, when the attribute-cache lookup
    fails, [Getattr] returns [-ENOENT] and appends the path to the list,
    sending nothing beyond what the lookup sent; from then on, whatever
    the time, [Getattr] on that path returns [-ENOENT] and leaves the
    world as it was, so it sends no request. *)
Theorem Getattr_not_found path s w :
  (isNotExist_in (notExistList w) path = true ->
   Getattr E path s w = Ret (- ENOENT, w)) /\
  (isNotExist_in (notExistList w) path = false ->
   forall e w1, GetStat E path w = Ret (inr e, w1) ->
     let w2 := set_notExistList (notExistList w ++ [path]) w1 in
     Getattr E path s w = Ret (- ENOENT, w2) /\
     net w2 = net w1 /\
     forall s' now,
       Getattr E path s' (set_clock now w2) = Ret (- ENOENT, set_clock now w2)).
Proof.
  split; [apply Getattr_listed |].
  intros Hin e w1 Hget w2.
  destruct (keeps_GetStat E path _ _ _ Hget) as (Hl & _).
  split.
  - unfold Getattr, bind, isNotExist. rewrite Hin, Hget, notExist_eq.
    rewrite Hl, Hin. reflexivity.
  - split; [done |]. intros s' now.
    apply Getattr_listed. simpl. apply isNotExist_in_snoc.
Qed.

(** C8. When the attribute-cache lookup of [Getattr] yields a record whose
    [Uid] is zero, [Getattr] returns 0 after writing the calling context's
    user and group into the [Uid] and the [Gid] of that record; the
    caller's [*s] has the caller's user as [Uid], the caller's group as
    [Gid] and every other field as the lookup gave it, and so has the
    cached record itself. *)
Theorem Getattr_fills_owner path s w stat v w1 :
  isNotExist_in (notExistList w) path = false ->
  GetStat E path w = Ret (inl stat, w1) ->
  heap w1 !! stat = Some v ->
  Uid v = 0 ->
  let filled :=
    {| Mode := Mode v; Uid := ctx_uid w; Gid := ctx_gid w; Size := Size v;
       Atim := Atim v; Mtim := Mtim v; Ctim := Ctim v; Flags := Flags v |} in
  exists w',
    Getattr E path s w = Ret (0, w') /\
    heap w' !! s = Some filled /\
    heap w' !! stat = Some filled /\
    net w' = net w1.
Proof.
  intros Hin Hget Hv Huid filled.
  change filled with (set_owner (ctx_uid w) (ctx_gid w) v). clear filled.
  destruct (keeps_GetStat E path _ _ _ Hget) as (_ & _ & Hu & Hg).
  unfold Getattr, bind, isNotExist. rewrite Hin, Hget.
  unfold load at 1. rewrite Hv, Huid. simpl.
  unfold update, bind, load, fuse_Getcontext. rewrite Hv. simpl.
  rewrite lookup_insert_eq. simpl.
  eexists. split; [reflexivity |]. simpl.
  rewrite Hu, Hg. split; [by rewrite lookup_insert_eq |].
  split; [| done].
  destruct (decide (s = stat)) as [-> | Hne].
  - by rewrite lookup_insert_eq.
  - rewrite lookup_insert_ne by done. by rewrite lookup_insert_eq.
Qed.

End GetattrProperties.

(** ** [Read] *)

Section ReadProperties.

Variable E : Env.

Lemma wrap64_in_range z : - 2 ^ 63 <= z < 2 ^ 63 -> wrap64 z = z.
Proof.
  intros H. unfold wrap64. rewrite Z.mod_small; lia.
Qed.

Lemma wrap64_above z : 2 ^ 63 <= z < 2 ^ 64 -> wrap64 z = z - 2 ^ 64.
Proof.
  intros H. unfold wrap64.
  replace (z + 2 ^ 63) with ((z - 2 ^ 63) + 1 * 2 ^ 64) by lia.
  rewrite Z.mod_add by lia. rewrite Z.mod_small; lia.
Qed.

(** C5. When the file at [path] reads as [contents], [Read] with a buffer
    [buff] and a file offset [ofst] copies into the front of [buff] the
    bytes of [contents] from [ofst] on, as many as fit in [buff] and exist
    in [contents], and returns their number. At or beyond the end of
    [contents] it copies nothing and returns 0; within [contents], when the
    buffer reaches beyond the end, it copies the [len(contents) - ofst]
    trailing bytes. *)
Theorem Read_copies_clipped_range path buff ofst w contents n1 :
  ReadFile E path (net w) = Ret (inl contents, n1) ->
  0 <= ofst < 2 ^ 63 ->
  Z.of_nat (length buff) + Z.of_nat (length contents) < 2 ^ 63 ->
  let n := Nat.min (length buff) (length contents - Z.to_nat ofst) in
  Read E path buff ofst w =
    Ret ((Z.of_nat n, take n (drop (Z.to_nat ofst) contents) ++ drop n buff),
         set_net n1 w) /\
  (Z.of_nat (length contents) <= ofst -> n = 0%nat) /\
  (ofst < Z.of_nat (length contents) < ofst + Z.of_nat (length buff) ->
   Z.of_nat n = Z.of_nat (length contents) - ofst).
Proof.
  intros Hread Hofst Hlen n.
  split; [| split; intros; unfold n; lia].
  unfold Read, bind, on_client. rewrite Hread.
  set (L := Z.of_nat (length contents)) in *.
  set (B := Z.of_nat (length buff)) in *.
  destruct (Z_lt_le_dec (ofst + B) (2 ^ 63)) as [Hsmall | Hbig].
  - rewrite wrap64_in_range by lia.
    destruct (Z.gtb_spec (ofst + B) L) as [Hgt | Hle].
    + (* the buffer reaches beyond the end *)
      destruct (Z.ltb_spec L ofst) as [Hpast | Hin].
      * replace n with 0%nat by (unfold n; lia). done.
      * unfold slice_bytes.
        replace ((0 <=? ofst) && (ofst <=? L) && (L <=? Z.of_nat (length contents)))
          with true by (symmetry; rewrite !andb_true_iff, !Z.leb_le; unfold L; lia).
        unfold ret, copy.
        rewrite length_take, length_drop.
        replace (Z.to_nat (L - ofst)) with (length contents - Z.to_nat ofst)%nat
          by (unfold L; lia).
        replace (length buff `min`
                 ((length contents - Z.to_nat ofst)
                    `min` (length contents - Z.to_nat ofst)))%nat with n
          by (unfold n; lia).
        rewrite take_take.
        replace (n `min` (length contents - Z.to_nat ofst))%nat with n
          by (unfold n; lia).
        done.
    + (* the whole range lies within the contents *)
      destruct (Z.ltb_spec (ofst + B) ofst) as [Hneg | _]; [unfold B in Hneg; lia |].
      unfold slice_bytes.
      replace ((0 <=? ofst) && (ofst <=? ofst + B) && (ofst + B <=? Z.of_nat (length contents)))
        with true
        by (symmetry; rewrite !andb_true_iff, !Z.leb_le; unfold L, B in *; lia).
      unfold ret, copy.
      rewrite length_take, length_drop.
      replace (Z.to_nat (ofst + B - ofst)) with (length buff) by (unfold B; lia).
      replace (length buff `min` (length buff `min` (length contents - Z.to_nat ofst)))%nat
        with n by (unfold n; lia).
      rewrite take_take.
      replace (n `min` length buff)%nat with n by (unfold n; lia).
      done.
  - (* the end offset wraps around: the offset is far beyond the contents *)
    rewrite wrap64_above by (unfold B in *; lia).
    destruct (Z.gtb_spec (ofst + B - 2 ^ 64) L) as [Hgt | _]; [unfold L in Hgt; lia |].
    destruct (Z.ltb_spec (ofst + B - 2 ^ 64) ofst) as [_ | Hge]; [| unfold B in Hge; lia].
    replace n with 0%nat by (unfold n, L, B in *; lia). done.
Qed.

End ReadProperties.

(** ** [getDir] *)

Section GetDirProperties.

Variable E : Env.

Lemma update_fresh p v f w h nx :
  heap w = <[p := v]> h -> next_loc w = nx ->
  update p f w = Ret (tt, set_heap (<[p := f v]> h) nx w).
Proof.
  intros Hh Hn. unfold update, bind, load, store, modify.
  rewrite Hh, lookup_insert_eq. simpl. rewrite Hh, Hn.
  by rewrite insert_insert_eq.
Qed.

(** What one turn of the loop of [getDir] does: it allocates the child's
    record, maps the child's name to it, and installs it in the attribute
    cache under the child's content location. *)
Lemma getDir_child_effect path now uid gid rt ch w rt' w' :
  getDir_child E path now uid gid rt ch w = Ret (rt', w') ->
  rt' = {| children := <[Name ch := next_loc w]> (children rt) |} /\
  statCache w' =
    <[ContentLocation ch :=
        mkCacheEntry (next_loc w) (Sec (clock w)) DefaultRemoteCacheSeconds]>
      (statCache w) /\
  (exists v, heap w' = <[next_loc w := v]> (heap w)) /\
  next_loc w' = S (next_loc w) /\
  dirCache w' = dirCache w /\
  notExistList w' = notExistList w /\ clock w' = clock w /\
  ctx_uid w' = ctx_uid w /\ ctx_gid w' = ctx_gid w.
Proof.
  unfold getDir_child, bind at 1, new_Stat.
  set (v0 := {| Mode := 0; Uid := uid; Gid := gid; Size := 0; Atim := now;
                Mtim := now; Ctim := now; Flags := 0 |}).
  set (w0 := set_heap (<[next_loc w := v0]> (heap w)) (S (next_loc w)) w).
  assert (H0 : heap w0 = <[next_loc w := v0]> (heap w)) by done.
  assert (Hfinish : forall v w1,
            heap w1 = <[next_loc w := v]> (heap w) ->
            next_loc w1 = S (next_loc w) ->
            statCache w1 = statCache w -> dirCache w1 = dirCache w ->
            notExistList w1 = notExistList w -> clock w1 = clock w ->
            ctx_uid w1 = ctx_uid w -> ctx_gid w1 = ctx_gid w ->
            (PreStatCacheSeconds (ContentLocation ch) (next_loc w)
               DefaultRemoteCacheSeconds >>
             ret {| children := <[Name ch := next_loc w]> (children rt) |}) w1
              = Ret (rt', w') ->
            rt' = {| children := <[Name ch := next_loc w]> (children rt) |} /\
            statCache w' =
              <[ContentLocation ch :=
                  mkCacheEntry (next_loc w) (Sec (clock w)) DefaultRemoteCacheSeconds]>
                (statCache w) /\
            (exists v, heap w' = <[next_loc w := v]> (heap w)) /\
            next_loc w' = S (next_loc w) /\
            dirCache w' = dirCache w /\
            notExistList w' = notExistList w /\ clock w' = clock w /\
            ctx_uid w' = ctx_uid w /\ ctx_gid w' = ctx_gid w).
  { intros v w1 Hh Hn Hs Hd Hl Hc Hu Hg [= <- <-]. simpl.
    rewrite Hs, Hc. repeat split; eauto. }
  unfold bind at 1.
  destruct (child_Directory ch).
  - rewrite (update_fresh _ v0 _ w0 (heap w) (S (next_loc w))) by done.
    apply (Hfinish (set_Mode (Z.lor S_IFDIR S_IRWXU) v0)); done.
  - unfold bind at 1.
    rewrite (update_fresh _ v0 _ w0 (heap w) (S (next_loc w))) by done.
    set (v1 := set_Mode (Z.lor S_IFREG S_IRWXU) v0).
    set (w1 := set_heap (<[next_loc w := v1]> (heap w)) (S (next_loc w)) w0).
    unfold bind at 1, load at 1.
    replace (heap w1 !! next_loc w) with (Some v1)
      by (symmetry; apply lookup_insert_eq).
    change (Size v1 =? 0) with true. cbv iota.
    unfold bind at 1, on_client.
    destruct (ReadFile E path (net w1)) as [[[content | err] n1] |]; [| | done].
    + rewrite (update_fresh _ v1 _ (set_net n1 w1) (heap w) (S (next_loc w))) by done.
      apply (Hfinish (set_Size (Z.of_nat (length content)) v1)); done.
    + apply (Hfinish v1); done.
Qed.

(** The loop of [getDir]: afterwards every content location of the listing
    has an attribute-cache entry, stamped with the time of the call, whose
    record was allocated by the loop; the records and the cache entries
    that were there before, under other paths, are untouched. *)
Lemma getDir_children_effect path now uid gid : forall cs rt w rt' w',
  getDir_children E path now uid gid rt cs w = Ret (rt', w') ->
  (dirCache w' = dirCache w /\
   notExistList w' = notExistList w /\ clock w' = clock w /\
   ctx_uid w' = ctx_uid w /\ ctx_gid w' = ctx_gid w) /\
  (next_loc w <= next_loc w')%nat /\
  (forall q, (q < next_loc w)%nat -> heap w' !! q = heap w !! q) /\
  (forall k, k ∉ ContentLocation <$> cs -> statCache w' !! k = statCache w !! k) /\
  (forall k, k ∈ ContentLocation <$> cs ->
     exists p v,
       statCache w' !! k =
         Some (mkCacheEntry p (Sec (clock w)) DefaultRemoteCacheSeconds) /\
       heap w' !! p = Some v /\ (p < next_loc w')%nat).
Proof.
  induction cs as [| ch cs IH]; intros rt w rt' w'; simpl.
  - intros [= <- <-]. repeat split; try done.
    intros k Hk. by apply elem_of_nil in Hk.
  - unfold bind.
    destruct (getDir_child E path now uid gid rt ch w) as [[rt1 w1] |] eqn:H1;
      [| done].
    intros H2.
    destruct (getDir_child_effect _ _ _ _ _ _ _ _ _ H1)
      as (_ & Hs1 & [v1 Hh1] & Hn1 & Hd1 & Hl1 & Hc1 & Hu1 & Hg1).
    destruct (IH _ _ _ _ H2) as ((Hd & Hl & Hc & Hu & Hg) & Hn & Hold & Hother & Hin).
    split; [repeat split; congruence |].
    split; [lia |].
    split.
    { intros q Hq. rewrite Hold by lia. rewrite Hh1.
      apply lookup_insert_ne. lia. }
    split.
    { intros k Hk. apply not_elem_of_cons in Hk as [Hne Hk].
      rewrite Hother by done. rewrite Hs1. by apply lookup_insert_ne. }
    intros k Hk.
    destruct (decide (k ∈ ContentLocation <$> cs)) as [Hlater | Hlast].
    + destruct (Hin k Hlater) as (p & v & Hp & Hv & Hlt).
      exists p, v. by rewrite <- Hc1.
    + apply elem_of_cons in Hk as [-> | Hk]; [| done].
      exists (next_loc w), v1.
      rewrite Hother by done. rewrite Hs1, lookup_insert_eq.
      split; [done |]. split; [| lia].
      rewrite Hold by lia. rewrite Hh1. apply lookup_insert_eq.
Qed.

(** A valid attribute-cache entry answers [Getattr] without a request. *)
Lemma Getattr_cache_hit path s w e v :
  isNotExist_in (notExistList w) path = false ->
  statCache w !! path = Some e ->
  entry_valid (Sec (clock w)) e = true ->
  heap w !! ce_value e = Some v ->
  exists w',
    Getattr E path s w = Ret (0, w') /\ net w' = net w /\
    heap w' !! s =
      Some (if Uid v =? 0 then set_owner (ctx_uid w) (ctx_gid w) v else v).
Proof.
  intros Hin He Hvalid Hv.
  unfold Getattr, bind, isNotExist. rewrite Hin.
  unfold GetStat, StatCache_GetStat, bind, get. rewrite He, Hvalid.
  unfold ret, load at 1. rewrite Hv.
  destruct (Uid v =? 0).
  - unfold update, bind, load, fuse_Getcontext. rewrite Hv. simpl.
    rewrite lookup_insert_eq. simpl.
    eexists. split; [reflexivity |]. split; [done |]. simpl.
    by rewrite lookup_insert_eq.
  - unfold load. rewrite Hv. simpl.
    eexists. split; [reflexivity |]. split; [done |]. simpl.
    by rewrite lookup_insert_eq.
Qed.

(** C2, amended. When [getDir] returns the listing of [path], the
    Directory Cache holds that listing under [path], and the Attribute
    Cache holds, under the content location of every child of the remote
    listing, an entry stamped with the time of the call whose record is
    allocated. A later [Getattr] on such a child path, less than the
    time-to-live after that time, returns 0 from the cache without sending
    a request, provided the child path is not in the negative-existence
    list. *)
Theorem getDir_preloads_children path w rt w' :
  getDir E path w = Ret (inl rt, w') ->
  exists dir n1,
    ReadDirectory E path (net w) = Ret (inl dir, n1) /\
    dirCache w' !! path =
      Some (mkCacheEntry rt (Sec (clock w)) DefaultRemoteCacheSeconds) /\
    forall ch, ch ∈ Children dir ->
      (exists p v,
         statCache w' !! ContentLocation ch =
           Some (mkCacheEntry p (Sec (clock w)) DefaultRemoteCacheSeconds) /\
         heap w' !! p = Some v) /\
      forall s now,
        isNotExist_in (notExistList w') (ContentLocation ch) = false ->
        Sec now - Sec (clock w) < DefaultRemoteCacheSeconds ->
        exists w'',
          Getattr E (ContentLocation ch) s (set_clock now w') = Ret (0, w'') /\
          net w'' = net w'.
Proof.
  unfold getDir, bind at 1, on_client.
  destruct (ReadDirectory E path (net w)) as [[[dir | err] n1] |] eqn:Hdir;
    [| done | done].
  unfold bind at 1, fuse_Now. unfold bind at 1, fuse_Getcontext.
  unfold bind at 1. simpl.
  destruct (getDir_children E path (clock w) (ctx_uid w) (ctx_gid w)
              {| children := ∅ |} (Children dir) (set_net n1 w))
    as [[rt1 w1] |] eqn:Hloop; [| done].
  intros [= <- <-].
  destruct (getDir_children_effect _ _ _ _ _ _ _ _ _ Hloop)
    as ((Hd & Hl & Hc & Hu & Hg) & Hn & Hold & Hother & Hin).
  simpl in Hc.
  exists dir, n1. split; [done |]. split.
  { simpl. rewrite Hc. apply lookup_insert_eq. }
  intros ch Hch.
  assert (Hk : ContentLocation ch ∈ ContentLocation <$> Children dir)
    by (by apply list_elem_of_fmap_2).
  destruct (Hin _ Hk) as (p & v & Hp & Hv & _). simpl in Hp.
  split; [by exists p, v |].
  intros s now Hne Hnow.
  destruct (Getattr_cache_hit (ContentLocation ch) s
              (set_clock now (set_dirCache
                 (<[path := mkCacheEntry rt1 (Sec (clock w1)) DefaultRemoteCacheSeconds]>
                    (dirCache w1)) w1))
              (mkCacheEntry p (Sec (clock w)) DefaultRemoteCacheSeconds) v)
    as (w'' & Hget & Hnet & _); try done.
  { unfold entry_valid. simpl. by apply Z.ltb_lt. }
  by exists w''.
Qed.

(** One turn of the loop for a child that is a regular file. *)
Lemma getDir_child_regular_file path now uid gid rt ch w r n1 :
  child_Directory ch = false ->
  ReadFile E path (net w) = Ret (r, n1) ->
  exists w',
    getDir_child E path now uid gid rt ch w =
      Ret ({| children := <[Name ch := next_loc w]> (children rt) |}, w') /\
    net w' = n1 /\
    heap w' !! next_loc w =
      Some {| Mode := Z.lor S_IFREG S_IRWXU; Uid := uid; Gid := gid;
              Size := match r with
                      | inl content => Z.of_nat (length content)
                      | inr _ => 0
                      end;
              Atim := now; Mtim := now; Ctim := now; Flags := 0 |}.
Proof.
  intros Hfile Hread.
  unfold getDir_child, bind at 1, new_Stat.
  set (v0 := {| Mode := 0; Uid := uid; Gid := gid; Size := 0; Atim := now;
                Mtim := now; Ctim := now; Flags := 0 |}).
  set (w0 := set_heap (<[next_loc w := v0]> (heap w)) (S (next_loc w)) w).
  rewrite Hfile. unfold bind at 1. unfold bind at 1.
  rewrite (update_fresh _ v0 _ w0 (heap w) (S (next_loc w))) by done.
  set (v1 := set_Mode (Z.lor S_IFREG S_IRWXU) v0).
  set (w1 := set_heap (<[next_loc w := v1]> (heap w)) (S (next_loc w)) w0).
  unfold bind at 1, load at 1.
  replace (heap w1 !! next_loc w) with (Some v1)
    by (symmetry; apply lookup_insert_eq).
  change (Size v1 =? 0) with true. cbv iota.
  unfold bind at 1, on_client.
  change (net w1) with (net w). rewrite Hread.
  destruct r as [content | err].
  - rewrite (update_fresh _ v1 _ (set_net n1 w1) (heap w) (S (next_loc w))) by done.
    eexists. split; [reflexivity |]. split; [done |]. simpl.
    by rewrite lookup_insert_eq.
  - eexists. split; [reflexivity |]. split; [done |]. simpl.
    by rewrite lookup_insert_eq.
Qed.

(** C6. For a regular-file child, the loop of [getDir] reads the file at
    [path], the path of the directory being listed, whatever the child's
    own content location: when that read yields [content], the child's
    size is the length of [content]; when it fails, the child keeps size 0
    and the loop goes on. The only requests sent are those of that read. *)
Theorem getDir_child_size_read_at_directory_path path now uid gid rt ch w r n1 :
  child_Directory ch = false ->
  ReadFile E path (net w) = Ret (r, n1) ->
  exists w' v,
    getDir_child E path now uid gid rt ch w =
      Ret ({| children := <[Name ch := next_loc w]> (children rt) |}, w') /\
    net w' = n1 /\
    heap w' !! next_loc w = Some v /\
    Mode v = Z.lor S_IFREG S_IRWXU /\
    Size v = match r with
             | inl content => Z.of_nat (length content)
             | inr _ => 0
             end.
Proof.
  intros Hfile Hread.
  destruct (getDir_child_regular_file path now uid gid rt ch w r n1 Hfile Hread)
    as (w' & Hrun & Hnet & Hheap).
  eexists w', _. split; [exact Hrun |]. split; [exact Hnet |].
  split; [exact Hheap |]. done.
Qed.

Lemma getDir_child_returns path now uid gid rt ch w :
  answers E -> exists rt' w', getDir_child E path now uid gid rt ch w = Ret (rt', w').
Proof.
  intros Hans. destruct (child_Directory ch) eqn:Hkind.
  - unfold getDir_child, bind at 1, new_Stat. rewrite Hkind. unfold bind at 1.
    erewrite update_fresh; [| simpl; reflexivity | reflexivity].
    by eauto.
  - destruct (ReadFile_returns E path (net w) Hans) as (r & n1 & Hread).
    destruct (getDir_child_regular_file path now uid gid rt ch w r n1 Hkind Hread)
      as (w' & Hrun & _).
    by eauto.
Qed.

Lemma getDir_children_returns path now uid gid : forall cs rt w,
  answers E ->
  exists rt' w', getDir_children E path now uid gid rt cs w = Ret (rt', w').
Proof.
  induction cs as [| ch cs IH]; intros rt w Hans; simpl; [by eauto |].
  unfold bind.
  destruct (getDir_child_returns path now uid gid rt ch w Hans) as (rt1 & w1 & ->).
  by apply IH.
Qed.

(** X3. Against a service that answers every request, [getDir] returns the
    listing whenever [ReadDirectory] yields one: a failing size read does
    not fail it. *)
Theorem getDir_returns_listing path w dir n1 :
  answers E ->
  ReadDirectory E path (net w) = Ret (inl dir, n1) ->
  exists rt w', getDir E path w = Ret (inl rt, w').
Proof.
  intros Hans Hdir. unfold getDir, bind at 1, on_client. rewrite Hdir.
  unfold bind at 1, fuse_Now. unfold bind at 1, fuse_Getcontext.
  unfold bind at 1. simpl.
  destruct (getDir_children_returns path (clock w) (ctx_uid w) (ctx_gid w)
              (Children dir) {| children := ∅ |} (set_net n1 w) Hans)
    as (rt & w1 & ->).
  by eauto.
Qed.

End GetDirProperties.

(** * The statements at work on a repository *)

Section Runs.

Import Demo.

Local Open Scope string_scope.

Lemma returned_listing {A} (o : Outcome ((A + error) * World)) w :
  match o with
  | Ret (inl _, _) => true
  | _ => false
  end = true ->
  exists rt, o = Ret (inl rt, after o w).
Proof.
  destruct o as [[[rt | err] w0] |]; try discriminate. intros _. by exists rt.
Qed.

Lemma fetchCSRFToken_succeeds_iff_token_valid_witness :
  remote env (sent (net_with "")) (handshake_request env (client (net_with "")))
    = status 200 [("X-Csrf-Token", "T1")] /\
  token (client (net_with "")) = "" /\
  exists n',
    fetchCSRFToken env (net_with "") = Ret (None, n') /\
    token (client n') = "T1" /\
    uri (client n') = uri (client (net_with "")).
Proof.
  split; [reflexivity |]. split; [reflexivity |].
  destruct (fetchCSRFToken_succeeds_iff_token_valid env (net_with "") _ eq_refl)
    as (res & n' & Hrun & _ & Hiff & Hinst & _).
  assert (Hres : res = None) by (apply Hiff; split; discriminate).
  destruct (Hinst Hres) as (Htoken & Huri & _).
  subst res. exists n'. split; [exact Hrun |]. split; [exact Htoken | exact Huri].
Defined.

Lemma request_transport_error_panics_witness :
  remote env (sent (net_with "T1"))
    (request_sent env (client (net_with "T1")) "GET" (file_prefix +:+ "/down") [])
    = TransportError (library_error "dial tcp: connection refused") /\
  request env "GET" (file_prefix +:+ "/down") [] (net_with "T1") = Panic nil_dereference.
Proof.
  split; [reflexivity |].
  apply (request_transport_error_panics env "GET" (file_prefix +:+ "/down") []
           (net_with "T1") (library_error "dial tcp: connection refused")).
  reflexivity.
Defined.

Lemma request_retry_resends_old_header_witness :
  let n := net_with "" in
  let rq := request_sent env (client n) "GET" (file_prefix +:+ "/f") [] in
  let hs := handshake_request env (client n) in
  (remote env (sent n) rq = status 403 [("X-Csrf-Token", "Required")] /\
   remote env (rq :: sent n) hs = status 200 [("X-Csrf-Token", "T1")]) /\
  request env "GET" (file_prefix +:+ "/f") [] n =
    Ret (as_go_pair (status 403 [("X-Csrf-Token", "Required")]),
         {| client := client_with "T1"; sent := [rq; hs; rq] |}) /\
  last (rq_infos rq) = Some (auth_header env (client n) "").
Proof.
  split; [split; reflexivity |].
  apply (request_retry_resends_old_header env "GET" (file_prefix +:+ "/f") []
           (net_with "")
           {| Response := {| StatusCode := 403;
                             resp_Header := [("X-Csrf-Token", "Required")] |};
              resp_body := inl [] |}
           {| Response := {| StatusCode := 200;
                             resp_Header := [("X-Csrf-Token", "T1")] |};
              resp_body := inl [] |});
    [reflexivity | reflexivity | reflexivity | discriminate | discriminate].
Defined.

(** The retry of C1 on a service that accepts the token it has just issued:
    the retry carries the empty token the client had, the service demands a
    token again, and the caller receives that 403 answer as a success;
    the same request made with the new token is served. *)
Example request_retry_rejected_for_old_token :
  request env "GET" (file_prefix +:+ "/f") [] (net_with "") =
    Ret ((Some {| Response := {| StatusCode := 403;
                                 resp_Header := [("X-Csrf-Token", "Required")] |};
                  resp_body := inl [] |}, None),
         {| client := client_with "T1";
            sent := [request_sent env (client_with "") "GET" (file_prefix +:+ "/f") [];
                     handshake_request env (client_with "");
                     request_sent env (client_with "") "GET" (file_prefix +:+ "/f") []] |}) /\
  Demo.sent_token (rq_infos (request_sent env (client_with "") "GET" (file_prefix +:+ "/f") []))
    = "" /\
  request env "GET" (file_prefix +:+ "/f") [] (net_with "T1") =
    Ret ((Some {| Response := {| StatusCode := 200; resp_Header := [] |};
                  resp_body := inl (list_byte_of_string "hello") |}, None),
         {| client := client_with "T1";
            sent := [request_sent env (client_with "T1") "GET" (file_prefix +:+ "/f") []] |}).
Proof. repeat split. Qed.

Lemma request_without_signal_sent_once_witness :
  let n := net_with "T1" in
  let r := {| Response := {| StatusCode := 404; resp_Header := [] |};
              resp_body := inl [] |} in
  (remote env (sent n) (request_sent env (client n) "GET" (file_prefix +:+ "/missing") [])
     = Answered r /\
   isCSRFTokenError (Response r) = false) /\
  request env "GET" (file_prefix +:+ "/missing") [] n =
    Ret ((Some r, None),
         {| client := client n;
            sent := [request_sent env (client n) "GET" (file_prefix +:+ "/missing") []] |}).
Proof.
  split; [split; reflexivity |].
  apply (request_without_signal_sent_once env "GET" (file_prefix +:+ "/missing") []
           (net_with "T1")); reflexivity.
Defined.

Lemma request_handshake_failure_not_retried_witness :
  let n := net_with "" in
  let rq := request_sent locked_env (client n) "GET" (file_prefix +:+ "/f") [] in
  let hs := handshake_request locked_env (client n) in
  (remote locked_env (sent n) rq = status 403 [("X-Csrf-Token", "Required")] /\
   remote locked_env (rq :: sent n) hs = status 401 [("X-Csrf-Token", "unsafe")]) /\
  request locked_env "GET" (file_prefix +:+ "/f") [] n =
    Ret ((None, Some (errors_New "request is not accepted")),
         {| client := client n; sent := [hs; rq] |}).
Proof.
  split; [split; reflexivity |].
  apply (request_handshake_failure_not_retried locked_env "GET" (file_prefix +:+ "/f") []
           (net_with "")
           {| Response := {| StatusCode := 403;
                             resp_Header := [("X-Csrf-Token", "Required")] |};
              resp_body := inl [] |}
           {| Response := {| StatusCode := 401;
                             resp_Header := [("X-Csrf-Token", "unsafe")] |};
              resp_body := inl [] |});
    [reflexivity | reflexivity | reflexivity | right; reflexivity].
Defined.

Lemma reachable_answers : answers reachable_env.
Proof.
  intros history rq. simpl. unfold reachable, files, ok, status.
  repeat match goal with
         | |- context [if ?b then _ else _] => destruct b
         end; eauto.
Qed.

Lemma getDir_returns_listing_witness :
  let w := world_with "T1" in
  (answers reachable_env /\
   ReadDirectory reachable_env "/parent" (net w)
     = Ret (inl listing, net (after (on_client (ReadDirectory reachable_env "/parent") w) w))) /\
  exists rt w', getDir reachable_env "/parent" w = Ret (inl rt, w').
Proof.
  intros w.
  assert (Hdir : ReadDirectory reachable_env "/parent" (net w)
                 = Ret (inl listing,
                        net (after (on_client (ReadDirectory reachable_env "/parent") w) w)))
    by (vm_compute; reflexivity).
  split; [split; [exact reachable_answers | exact Hdir] |].
  exact (getDir_returns_listing reachable_env "/parent" w listing _ reachable_answers Hdir).
Defined.

Lemma notExistList_has_no_duplicates_witness :
  notExistList (world_with "T1") = [] /\
  exists w',
    run_ops [Add "/a"; Add "/a"; Remove "/a"; Add "/b"; Add "/a"] (world_with "T1")
      = Ret (tt, w') /\
    NoDup (notExistList w').
Proof.
  split; [reflexivity |].
  apply (notExistList_has_no_duplicates
           [Add "/a"; Add "/a"; Remove "/a"; Add "/b"; Add "/a"] (world_with "T1")).
  reflexivity.
Defined.

(** The removal of C3 on a list that holds the path, once and twice. *)
Example removeFromNotExist_keeps_listed_path :
  let once := set_notExistList ["/a"] (world_with "T1") in
  let twice := set_notExistList ["/a"; "/b"; "/a"] (world_with "T1") in
  removeFromNotExist "/a" once = Ret (tt, once) /\
  isNotExist_in (notExistList once) "/a" = true /\
  removeFromNotExist "/a" twice = Ret (tt, twice) /\
  isNotExist_in (notExistList twice) "/a" = true.
Proof. repeat split. Qed.

(** The loop of [removeFromNotExist] on lists that do hold the path, which
    its guard never lets it see: it deletes a single occurrence, skips the
    second of two adjacent ones, and slices out of range when the last
    element is a second occurrence. *)
Example remove_range_on_listed_path :
  remove_range "/a" 3 0 (slice_of ["/x"; "/a"; "/y"])
    = Ret {| backing := ["/x"; "/y"; "/y"]; slen := 2 |} /\
  remove_range "/a" 3 0 (slice_of ["/a"; "/a"; "/x"])
    = Ret {| backing := ["/a"; "/x"; "/x"]; slen := 2 |} /\
  remove_range "/a" 3 0 (slice_of ["/x"; "/a"; "/a"]) = Panic slice_bounds_out_of_range.
Proof. repeat split. Qed.

Lemma Getattr_not_found_witness :
  let listed := set_notExistList ["/missing"] (world_with "T1") in
  let w := world_with "T1" in
  let w1 := after (GetStat env "/missing" w) w in
  (isNotExist_in (notExistList listed) "/missing" = true /\
   Getattr env "/missing" 9%nat listed = Ret (- ENOENT, listed)) /\
  (isNotExist_in (notExistList w) "/missing" = false /\
   GetStat env "/missing" w = Ret (inr ErrFileNotFound, w1) /\
   Getattr env "/missing" 9%nat w = Ret (- ENOENT, set_notExistList ["/missing"] w1) /\
   Getattr env "/missing" 9%nat (set_notExistList ["/missing"] w1)
     = Ret (- ENOENT, set_notExistList ["/missing"] w1)).
Proof.
  intros listed w w1.
  split.
  - split; [reflexivity |].
    apply (proj1 (Getattr_not_found env "/missing" 9%nat listed)). reflexivity.
  - assert (Hget : GetStat env "/missing" w = Ret (inr ErrFileNotFound, w1))
      by (vm_compute; reflexivity).
    split; [reflexivity |]. split; [exact Hget |].
    destruct (proj2 (Getattr_not_found env "/missing" 9%nat w) eq_refl _ _ Hget)
      as (Hfirst & _ & Hnext).
    split; [exact Hfirst |].
    exact (Hnext 9%nat (clock w1)).
Defined.

Lemma Getattr_fills_owner_witness :
  let v := {| Mode := Z.lor S_IFREG S_IRWXU; Uid := 0; Gid := 0; Size := 5;
              Atim := clock cached_by_root; Mtim := clock cached_by_root;
              Ctim := clock cached_by_root; Flags := 0 |} in
  let filled :=
    {| Mode := Z.lor S_IFREG S_IRWXU; Uid := 1000; Gid := 100; Size := 5;
       Atim := clock cached_by_root; Mtim := clock cached_by_root;
       Ctim := clock cached_by_root; Flags := 0 |} in
  (isNotExist_in (notExistList cached_by_root) "/f" = false /\
   GetStat env "/f" cached_by_root = Ret (inl 0%nat, cached_by_root) /\
   heap cached_by_root !! 0%nat = Some v /\ Uid v = 0) /\
  exists w',
    Getattr env "/f" 5%nat cached_by_root = Ret (0, w') /\
    heap w' !! 5%nat = Some filled /\
    heap w' !! 0%nat = Some filled /\
    net w' = net cached_by_root.
Proof.
  intros v filled.
  assert (Hget : GetStat env "/f" cached_by_root = Ret (inl 0%nat, cached_by_root))
    by (vm_compute; reflexivity).
  assert (Hv : heap cached_by_root !! 0%nat = Some v) by (vm_compute; reflexivity).
  split; [repeat split; assumption |].
  exact (Getattr_fills_owner env "/f" 5%nat cached_by_root 0%nat v cached_by_root
           eq_refl Hget Hv eq_refl).
Defined.

Lemma Read_copies_clipped_range_witness :
  let w := world_with "T1" in
  let buff := list_byte_of_string "...." in
  let contents := list_byte_of_string "hello" in
  let n1 := net (after (Read env "/f" buff 3 w) w) in
  (ReadFile env "/f" (net w) = Ret (inl contents, n1) /\
   0 <= 3 < 2 ^ 63 /\
   Z.of_nat (length buff) + Z.of_nat (length contents) < 2 ^ 63) /\
  Read env "/f" buff 3 w = Ret ((2, list_byte_of_string "lo.."), set_net n1 w).
Proof.
  intros w buff contents n1.
  assert (Hread : ReadFile env "/f" (net w) = Ret (inl contents, n1))
    by (vm_compute; reflexivity).
  assert (Hofst : 0 <= 3 < 2 ^ 63) by (split; [discriminate | reflexivity]).
  assert (Hlen : Z.of_nat (length buff) + Z.of_nat (length contents) < 2 ^ 63)
    by reflexivity.
  split; [split; [exact Hread | split; [exact Hofst | exact Hlen]] |].
  exact (proj1 (Read_copies_clipped_range env "/f" buff 3 w contents n1
                  Hread Hofst Hlen)).
Defined.

(** [Read] at the end of the contents, beyond it, and with an end offset
    that wraps around: nothing is copied and 0 is returned. *)
Example Read_at_and_beyond_end :
  let w := world_with "T1" in
  let buff := list_byte_of_string "...." in
  let n1 := net (after (Read env "/f" buff 5 w) w) in
  Read env "/f" buff 5 w = Ret ((0, buff), set_net n1 w) /\
  Read env "/f" buff 6 w = Ret ((0, buff), set_net n1 w) /\
  Read env "/f" buff (2 ^ 63 - 1) w = Ret ((0, buff), set_net n1 w).
Proof. vm_compute. repeat split. Qed.

Lemma getDir_preloads_children_witness :
  let w := world_with "T1" in
  let w' := after (getDir env "/parent" w) w in
  let a := {| Name := "a"; ContentLocation := "/parent/a"; child_Directory := false |} in
  (exists rt, getDir env "/parent" w = Ret (inl rt, w')) /\
  (exists rt, dirCache w' !! "/parent" = Some (mkCacheEntry rt 1000 15)) /\
  (exists p v, statCache w' !! "/parent/a" = Some (mkCacheEntry p 1000 15) /\
               heap w' !! p = Some v) /\
  exists w'',
    Getattr env "/parent/a" 9%nat (set_clock {| Sec := 1014; Nsec := 0 |} w')
      = Ret (0, w'') /\
    net w'' = net w'.
Proof.
  intros w w' a.
  destruct (returned_listing (getDir env "/parent" w) w) as [rt Hrun];
    [vm_compute; reflexivity |].
  fold w' in Hrun.
  destruct (getDir_preloads_children env "/parent" w rt w' Hrun)
    as (dir & n1 & Hdir & Hparent & Hchildren).
  assert (Hlisting : dir = listing).
  { assert (H : ReadDirectory env "/parent" (net w)
                = Ret (inl listing, net (after (on_client (ReadDirectory env "/parent") w) w)))
      by (vm_compute; reflexivity).
    rewrite H in Hdir. by injection Hdir as <- _. }
  subst dir.
  destruct (Hchildren a) as [Hentry Hhit].
  { apply elem_of_cons. by left. }
  split; [by exists rt |].
  split; [by exists rt |].
  split; [exact Hentry |].
  apply (Hhit 9%nat {| Sec := 1014; Nsec := 0 |}).
  - vm_compute. reflexivity.
  - reflexivity.
Defined.

(** C2 as stated fails for a child path that is in the negative-existence
    list. [/parent/a] is looked up before it exists and enters the list;
    then the listing of [/parent] succeeds and preloads a valid attribute
    entry for [/parent/a]; [Getattr] on [/parent/a] still returns [-ENOENT],
    from the list, not the cached record. *)
Lemma getDir_child_in_negative_list_not_served :
  Getattr late_env "/parent/a" 9%nat (world_with "T1") = Ret (- ENOENT, looked_up_early) /\
  (exists rt, getDir late_env "/parent" looked_up_early = Ret (inl rt, then_listed)) /\
  (exists e, statCache then_listed !! "/parent/a" = Some e /\
             entry_valid (Sec (clock then_listed)) e = true) /\
  Getattr late_env "/parent/a" 9%nat then_listed = Ret (- ENOENT, then_listed).
Proof.
  split; [vm_compute; reflexivity |].
  split.
  { apply (returned_listing (getDir late_env "/parent" looked_up_early) looked_up_early).
    vm_compute. reflexivity. }
  split.
  { eexists. split; vm_compute; reflexivity. }
  apply Getattr_listed. vm_compute. reflexivity.
Qed.

Lemma getDir_child_size_read_at_directory_path_witness :
  let w := world_with "T1" in
  let a := {| Name := "a"; ContentLocation := "/parent/a"; child_Directory := false |} in
  let n1 := net (after (on_client (ReadFile env "/parent") w) w) in
  (child_Directory a = false /\
   ReadFile env "/parent" (net w) = Ret (inl (list_byte_of_string "0123456789"), n1)) /\
  ReadFile env "/parent/a" (net w)
    = Ret (inl (list_byte_of_string "abc"),
           net (after (on_client (ReadFile env "/parent/a") w) w)) /\
  exists w',
    getDir_child env "/parent" (clock w) 1000 100 {| children := ∅ |} a w
      = Ret ({| children := {[ "a" := 0%nat ]} |}, w') /\
    net w' = n1 /\
    exists v, heap w' !! 0%nat = Some v /\ Size v = 10.
Proof.
  intros w a n1.
  assert (Hread : ReadFile env "/parent" (net w)
                  = Ret (inl (list_byte_of_string "0123456789"), n1))
    by (vm_compute; reflexivity).
  split; [split; [reflexivity | exact Hread] |].
  split; [vm_compute; reflexivity |].
  destruct (getDir_child_size_read_at_directory_path env "/parent" (clock w) 1000 100
              {| children := ∅ |} a w _ n1 eq_refl Hread)
    as (w' & v & Hrun & Hnet & Hheap & _ & Hsize).
  exists w'. split; [exact Hrun |]. split; [exact Hnet |].
  exists v. split; [exact Hheap | exact Hsize].
Defined.

(** The listing of C6 as a whole: [getDir] on [/parent] sends the listing
    request and one content request, for [/parent] itself; the file [a],
    whose content has 3 bytes, is recorded with the 10 bytes of what the
    service returns for [/parent]. *)
Example getDir_records_size_of_directory_content :
  let w' := after (getDir env "/parent" (world_with "T1")) (world_with "T1") in
  rq_url <$> sent (net w') =
    [base +:+ file_prefix +:+ "/parent"; base +:+ file_prefix +:+ "/parent"] /\
  (exists p v, statCache w' !! "/parent/a" = Some (mkCacheEntry p 1000 15) /\
               heap w' !! p = Some v /\ Size v = 10).
Proof.
  split; [vm_compute; reflexivity |].
  eexists _, _. split; [vm_compute; reflexivity |].
  split; [vm_compute; reflexivity | reflexivity].
Qed.

End Runs.

(** * Further properties of the client *)

Section MoreClientProperties.

Variable E : Env.

(** The handshake whose round trip fails hands back the error. *)
Lemma fetchCSRFToken_failed n e :
  remote E (sent n) (handshake_request E (client n)) = TransportError e ->
  fetchCSRFToken E n =
    Ret (Some e, {| client := client n; sent := handshake_request E (client n) :: sent n |}).
Proof.
  intros H. unfold fetchCSRFToken, bind, get. rewrite req_Do_eq.
  fold (handshake_request E (client n)). by rewrite H.
Qed.

(** X4. The handshake always returns, after exactly one request: with no
    error and a token that is neither empty nor ["unsafe"], or with an
    error (that of the transport when the round trip fails) and the client
    as it was. *)
Theorem fetchCSRFToken_sends_one_request n :
  exists res n',
    fetchCSRFToken E n = Ret (res, n') /\
    sent n' = handshake_request E (client n) :: sent n /\
    uri (client n') = uri (client n) /\
    (res = None -> token (client n') <> ""%string /\ token (client n') <> "unsafe"%string) /\
    (res <> None -> client n' = client n) /\
    (forall e, remote E (sent n) (handshake_request E (client n)) = TransportError e ->
               res = Some e).
Proof.
  destruct (remote E (sent n) (handshake_request E (client n))) as [r | e] eqn:H.
  - rewrite (fetchCSRFToken_answered E n r H).
    destruct (negb _ && negb _) eqn:Hv.
    + apply token_test_true in Hv.
      eexists _, _. split; [reflexivity |]. simpl.
      split_and!; [done | done | by intros _ | by intros ? | by intros ? ?].
    + eexists _, _. split; [reflexivity |]. simpl.
      split_and!; [done | done | by intros ? | by intros _ | by intros ? ?].
  - rewrite (fetchCSRFToken_failed n e H).
    eexists _, _. split; [reflexivity |]. simpl.
    split_and!; [done | done | by intros ? | by intros _ | by intros e' [= ->]].
Qed.

(** X5. Whatever the service does, a [request] that returns has sent the
    original request alone, or the original request and a failed
    handshake, or the original request, a handshake and one retry:
    never more than one handshake and one retry. It hands back a response
    or an error, never both and never neither. *)
Theorem request_sends_at_most_one_retry method path infos n res n' :
  request E method path infos n = Ret (res, n') ->
  let rq := request_sent E (client n) method path infos in
  let hs := handshake_request E (client n) in
  (sent n' = rq :: sent n \/ sent n' = hs :: rq :: sent n \/
   sent n' = rq :: hs :: rq :: sent n) /\
  ((exists r, res = (Some r, None)) \/ (exists e, res = (None, Some e))).
Proof.
  intros Hrun rq hs. revert Hrun.
  unfold request, bind, get. rewrite req_Do_eq.
  fold (request_sent E (client n) method path infos). fold rq.
  destruct (remote E (sent n) rq) as [r1 | e1]; simpl; [| done].
  destruct (isCSRFTokenError (Response r1)).
  - unfold bind.
    destruct (remote E (rq :: sent n) hs) as [r2 | e2] eqn:H2.
    + rewrite (fetchCSRFToken_answered E {| client := client n; sent := rq :: sent n |}
                 r2 H2).
      destruct (negb _ && negb _).
      * rewrite req_Do_eq. simpl.
        change (mkRequest method (formatURI (client n) path)
                  (infos ++ [auth_header E (client n) (token (client n))])) with rq.
        fold hs.
        destruct (remote E (hs :: rq :: sent n) rq); intros [= <- <-]; simpl;
          (split; [auto | eauto]).
      * intros [= <- <-]. simpl. split; [auto | eauto].
    + rewrite (fetchCSRFToken_failed {| client := client n; sent := rq :: sent n |}
                 e2 H2).
      intros [= <- <-]. simpl. split; [auto | eauto].
  - intros [= <- <-]. split; [auto | eauto].
Qed.

(** X6. When the retry that follows a successful handshake fails at the
    transport level, [request] returns that error: unlike a failure of
    the first round trip, it is not followed by a look at the response. *)
Theorem request_retry_transport_error_returned method path infos n r1 r2 e :
  let rq := request_sent E (client n) method path infos in
  let hs := handshake_request E (client n) in
  let tok := Header_Get (resp_Header (Response r2)) "x-csrf-token" in
  remote E (sent n) rq = Answered r1 ->
  isCSRFTokenError (Response r1) = true ->
  remote E (rq :: sent n) hs = Answered r2 ->
  tok <> ""%string -> tok <> "unsafe"%string ->
  remote E (hs :: rq :: sent n) rq = TransportError e ->
  request E method path infos n =
    Ret ((None, Some e),
         {| client := set_token tok (client n); sent := rq :: hs :: rq :: sent n |}).
Proof.
  intros rq hs tok H1 Hcsrf H2 Hne Hun H3.
  unfold request, bind, get. rewrite req_Do_eq.
  fold (request_sent E (client n) method path infos). fold rq.
  rewrite H1. simpl. rewrite Hcsrf. unfold bind.
  rewrite (fetchCSRFToken_answered E {| client := client n; sent := rq :: sent n |}
             r2 H2).
  simpl. fold tok.
  assert (Hv : negb (String.length tok =? 0)%nat && negb (String.eqb tok "unsafe") = true)
    by (by apply token_test_true).
  rewrite Hv, req_Do_eq. simpl.
  change (mkRequest method (formatURI (client n) path)
            (infos ++ [auth_header E (client n) (token (client n))])) with rq.
  fold hs. by rewrite H3.
Qed.

(** A request answered without the token-required signal. *)
Lemma request_plain method path infos n r :
  remote E (sent n) (request_sent E (client n) method path infos) = Answered r ->
  isCSRFTokenError (Response r) = false ->
  request E method path infos n =
    Ret ((Some r, None),
         {| client := client n;
            sent := request_sent E (client n) method path infos :: sent n |}).
Proof.
  intros H Hno. unfold request, bind, get. rewrite req_Do_eq.
  fold (request_sent E (client n) method path infos). rewrite H. simpl.
  by rewrite Hno.
Qed.

(** X7. [ReadFile] takes status 404, and no other, for absence: an answer
    with any other status, a 500 or a 403 without the signal among them,
    yields the result of reading its body as the content of the file. *)
Theorem ReadFile_only_404_is_absence filePath n r :
  let rq := request_sent E (client n) "GET" (file_prefix +:+ filePath)%string [] in
  remote E (sent n) rq = Answered r ->
  isCSRFTokenError (Response r) = false ->
  exists res,
    ReadFile E filePath n = Ret (res, {| client := client n; sent := rq :: sent n |}) /\
    (StatusCode (Response r) = 404 -> res = inr ErrFileNotFound) /\
    (StatusCode (Response r) <> 404 -> res = resp_body r).
Proof.
  intros rq H Hno. unfold ReadFile, bind.
  rewrite (request_plain _ _ _ _ r H Hno). simpl.
  destruct (Z.eqb_spec (StatusCode (Response r)) 404) as [Heq | Hne];
    eexists; (split; [reflexivity |]); split; intros; congruence.
Qed.

(** X8. [ReadDirectory] sends one GET with [depth=1]; on an answer without
    the signal it yields not-found for status 404, the error of reading
    the body when that fails, and otherwise what the JSON decoder makes of
    the body, its error included. *)
Theorem ReadDirectory_decodes_any_non404 filePath n r :
  let rq := request_sent E (client n) "GET" (file_prefix +:+ filePath)%string
              [QueryParam [("depth", "1")]]%string in
  remote E (sent n) rq = Answered r ->
  isCSRFTokenError (Response r) = false ->
  exists res,
    ReadDirectory E filePath n = Ret (res, {| client := client n; sent := rq :: sent n |}) /\
    (StatusCode (Response r) = 404 -> res = inr ErrFileNotFound) /\
    (StatusCode (Response r) <> 404 ->
       (forall e, resp_body r = inr e -> res = inr e) /\
       (forall b, resp_body r = inl b -> res = json_DirectoryDetail E b)).
Proof.
  intros rq H Hno. unfold ReadDirectory, bind.
  rewrite (request_plain _ _ _ _ r H Hno). simpl.
  destruct (Z.eqb_spec (StatusCode (Response r)) 404) as [Heq | Hne].
  - eexists. split; [reflexivity |]. split; [done | congruence].
  - unfold ret. destruct (resp_body r) as [b | e];
      (eexists; split; [reflexivity |]; split; [congruence |]);
      intros _; split; intros ? [= <-]; done.
Qed.

(** [Stat] on an answer without the signal. *)
Lemma Stat_answered filePath n r :
  let rq := request_sent E (client n) "GET" (file_prefix +:+ filePath)%string
              [QueryParam [("depth", "0"); ("parts", "meta")]]%string in
  remote E (sent n) rq = Answered r ->
  isCSRFTokenError (Response r) = false ->
  Stat E filePath n =
    Ret (if StatusCode (Response r) =? 404 then inr ErrFileNotFound
         else PathStat_of_body E (body_string r),
         {| client := client n; sent := rq :: sent n |}).
Proof.
  intros rq H Hno. unfold Stat, bind.
  rewrite (request_plain _ _ _ _ r H Hno). simpl.
  destruct (StatusCode (Response r) =? 404); [done |].
  unfold ret, PathStat_of_body, body_string.
  destruct (resp_body r) as [b | e];
    (destruct (gjson_Directory E _);
     [destruct (json_DirectoryMeta E _) | destruct (json_File E _)]; done).
Qed.


(** X10. [NewClient] always returns. When the host does not resolve it
    returns the resolver's error and sends nothing; otherwise it sends the
    handshake and nothing else. The client it returns holds a token that is
    neither empty nor ["unsafe"], the URI it was given, that URI's path as
    base directory and certificate checks on; without a client there is
    an error. *)
Theorem NewClient_starts_with_valid_token LookupHost u history :
  let rt := {| uri := u; token := ""; sslVerify := true; baseDirectory := url_Path u |} in
  exists res history',
    NewClient E LookupHost u history = Ret (res, history') /\
    (forall e, LookupHost (url_Host u) = Some e ->
               res = (None, Some e) /\ history' = history) /\
    (LookupHost (url_Host u) = None ->
       history' = handshake_request E rt :: history) /\
    (forall c, res.1 = Some c ->
       res.2 = None /\ token c <> ""%string /\ token c <> "unsafe"%string /\
       uri c = u /\ baseDirectory c = url_Path u /\ sslVerify c = true) /\
    (res.1 = None -> res.2 <> None).
Proof.
  intros rt. unfold NewClient, checkURIValidate, checkCredential, bind.
  fold rt.
  destruct (LookupHost (url_Host u)) as [e |].
  { eexists _, _. split; [reflexivity |]. simpl.
    split_and!; [by intros ? [= ->] | done | done | done]. }
  destruct (remote E history (handshake_request E rt)) as [r | e] eqn:H.
  - rewrite (fetchCSRFToken_answered E {| client := rt; sent := history |} r H).
    destruct (negb _ && negb _) eqn:Hv.
    + apply token_test_true in Hv. destruct Hv as [Hne Hun].
      eexists _, _. split; [reflexivity |]. simpl.
      split_and!; [done | done | | done].
      intros c [= <-]. simpl. by split_and!.
    + eexists _, _. split; [reflexivity |]. simpl.
      split_and!; [done | done | done | done].
  - rewrite (fetchCSRFToken_failed {| client := rt; sent := history |} e H).
    eexists _, _. split; [reflexivity |]. simpl.
    split_and!; [done | done | done | done].
Qed.

(** A lower-case letter and its upper-case form, under the two case
    functions and the dash test of the header key. *)
Lemma upper_form_of_letter c :
  (97 <= nat_of_ascii c <= 122)%nat ->
  let C := ascii_of_nat (nat_of_ascii c - 32) in
  upper_ascii C = upper_ascii c /\ lower_ascii C = c /\ lower_ascii c = c /\
  Ascii.eqb C "-"%char = Ascii.eqb c "-"%char /\
  (nat_of_ascii C < 128)%nat /\ (nat_of_ascii c < 128)%nat.
Proof.
  intros H.
  destruct c as [[] [] [] [] [] [] [] []]; vm_compute in H;
    first [exfalso; lia | vm_compute; repeat split; lia].
Qed.

(** On a byte of the ASCII range [strings.ToLower] works byte by byte. *)
Lemma strings_ToLower_ascii_head c r :
  (nat_of_ascii c < 128)%nat ->
  strings_ToLower (String c r) = String (lower_ascii c) (strings_ToLower r).
Proof.
  intros H.
  destruct c as [[] [] [] [] [] [] [] []]; vm_compute in H;
    first [exfalso; lia | reflexivity].
Qed.

(** Lowering a spelling of a lower-case ASCII text gives the text. *)
Lemma strings_ToLower_spells s t :
  spells s t ->
  forallb (fun c => (nat_of_ascii c <? 128)%nat && Ascii.eqb (lower_ascii c) c)
          (list_ascii_of_string t) = true ->
  strings_ToLower s = t.
Proof.
  induction 1 as [| c s t _ IH | c s t Hc _ IH]; intros Hall; [done | |];
    simpl in Hall; apply andb_true_iff in Hall as [Hhead Hrest];
    apply andb_true_iff in Hhead as [Hlt Hfix].
  - apply Nat.ltb_lt in Hlt. apply Ascii.eqb_eq in Hfix.
    rewrite strings_ToLower_ascii_head by done. by rewrite Hfix, IH.
  - destruct (upper_form_of_letter c Hc) as (_ & Hlow & _ & _ & HltC & _).
    rewrite strings_ToLower_ascii_head by done. by rewrite Hlow, IH.
Qed.

(** The canonical header key of a spelling is that of the text. *)
Lemma canonical_from_spells s t :
  spells s t -> forall up, canonical_from up s = canonical_from up t.
Proof.
  induction 1 as [| c s t _ IH | c s t Hc _ IH]; intros up; simpl; [done | |].
  - by rewrite IH.
  - destruct (upper_form_of_letter c Hc) as (Hup & Hlow & Hfix & Hdash & _).
    rewrite Hdash, IH. destruct up; [by rewrite Hup | by rewrite Hlow, Hfix].
Qed.

(** X11. The token-required signal does not depend on letter case: when
    the first header of a response is named [x-csrf-token] with any of its
    letters in upper case and its value is [required] with any of its
    letters in upper case, the response is the signal exactly when its
    status is 403. *)
Theorem isCSRFTokenError_ignores_case status name value rest :
  spells name "x-csrf-token" ->
  spells value "required" ->
  isCSRFTokenError {| StatusCode := status; resp_Header := (name, value) :: rest |}
    = (status =? 403).
Proof.
  intros Hname Hvalue. unfold isCSRFTokenError. simpl.
  unfold CanonicalMIMEHeaderKey.
  rewrite (canonical_from_spells _ _ Hname true), String.eqb_refl.
  rewrite (strings_ToLower_spells _ _ Hvalue) by reflexivity.
  simpl. by rewrite andb_true_r.
Qed.

Lemma append_assoc (a b c : string) : ((a +:+ b) +:+ c = a +:+ (b +:+ c))%string.
Proof.
  induction a as [| x a IH]; [reflexivity |].
  change (String x ((a +:+ b) +:+ c) = String x (a +:+ (b +:+ c)))%string.
  by rewrite IH.
Qed.

(** X12. [formatURI] writes port 443 when the URI names none. When the URI
    names a port, [uri.Host] already ends with it, and the port is written
    a second time after it. *)
Theorem formatURI_writes_port_after_host c path :
  (url_Port (uri c) = ""%string ->
   formatURI c path = ("https://" +:+ url_Hostname (uri c) +:+ ":443" +:+ path)%string) /\
  (url_Port (uri c) <> ""%string ->
   formatURI c path =
     ("https://" +:+ url_Hostname (uri c) +:+ ":" +:+ url_Port (uri c)
        +:+ ":" +:+ url_Port (uri c) +:+ path)%string).
Proof.
  unfold formatURI, url_Host. split.
  - intros ->. reflexivity.
  - intros Hport. destruct (url_Port (uri c)) as [| x port]; [done |].
    change ((String x port =? "")%string) with false.
    change ((String.length (String x port) =? 0)%nat) with false.
    cbv iota. by rewrite !append_assoc.
Qed.

End MoreClientProperties.

(** * Further properties of the adapter *)

Section MoreAdapterProperties.

Variable E : Env.

(** X13. [getStat] reads the content of the path it was asked about. For a
    regular file it sends the content request after the metadata request
    and records the length of what it reads, or 0 when the read returns
    an error; for a directory it sends no content request. Either way the
    record carries the calling user and group and the current time, and
    is installed in the attribute cache under the path. *)
Theorem getStat_reads_its_own_path path w hanaStat n1 :
  Stat E path (net w) = Ret (inl hanaStat, n1) ->
  let record mode size :=
    {| Mode := mode; Uid := ctx_uid w; Gid := ctx_gid w; Size := size;
       Atim := clock w; Mtim := clock w; Ctim := clock w; Flags := 0 |} in
  let installed w' :=
    statCache w' !! path =
      Some (mkCacheEntry (next_loc w) (Sec (clock w)) DefaultRemoteCacheSeconds) in
  (Directory hanaStat = true ->
   exists w',
     getStat E path w = Ret (inl (next_loc w), w') /\ net w' = n1 /\
     heap w' !! next_loc w = Some (record (Z.lor S_IFDIR S_IRWXU) 0) /\
     installed w') /\
  (Directory hanaStat = false ->
   forall r n2, ReadFile E path n1 = Ret (r, n2) ->
   exists w',
     getStat E path w = Ret (inl (next_loc w), w') /\ net w' = n2 /\
     heap w' !! next_loc w =
       Some (record (Z.lor S_IFREG S_IRWXU)
                    match r with
                    | inl content => Z.of_nat (length content)
                    | inr _ => 0
                    end) /\
     installed w').
Proof.
  intros Hstat record installed.
  set (w0 := set_heap (<[next_loc w := zero_Stat]> (heap w)) (S (next_loc w)) w).
  set (v1 := set_times (clock w) (set_owner (ctx_uid w) (ctx_gid w) zero_Stat)).
  set (w1 := set_heap (<[next_loc w := v1]> (heap w)) (S (next_loc w)) (set_net n1 w0)).
  assert (Hhead :
            getStat E path w =
              ((if Directory hanaStat
                then update (next_loc w) (set_Mode (Z.lor S_IFDIR S_IRWXU))
                else
                  update (next_loc w) (set_Mode (Z.lor S_IFREG S_IRWXU)) >>
                  let* v := load (next_loc w) in
                  if Size v =? 0 then
                    let* c := on_client (ReadFile E path) in
                    match c with
                    | inl content =>
                        update (next_loc w) (set_Size (Z.of_nat (length content)))
                    | inr _ => ret tt
                    end
                  else ret tt) >>
               PreStatCacheSeconds path (next_loc w) DefaultRemoteCacheSeconds >>
               ret (inl (next_loc w))) w1).
  { unfold getStat, bind at 1, new_Stat. fold w0.
    unfold bind at 1, on_client. change (net w0) with (net w). rewrite Hstat.
    unfold bind at 1, fuse_Now. unfold bind at 1, fuse_Getcontext.
    unfold bind at 1.
    by rewrite (update_fresh _ zero_Stat _ (set_net n1 w0) (heap w) (S (next_loc w))). }
  split.
  - intros Hdir. rewrite Hhead, Hdir. unfold bind at 1.
    rewrite (update_fresh _ v1 _ w1 (heap w) (S (next_loc w))) by done.
    eexists. split; [reflexivity |]. simpl.
    split; [done |]. unfold installed. simpl.
    by rewrite !lookup_insert_eq.
  - intros Hfile r n2 Hread. rewrite Hhead, Hfile.
    unfold bind at 1. unfold bind at 1.
    rewrite (update_fresh _ v1 _ w1 (heap w) (S (next_loc w))) by done.
    set (v2 := set_Mode (Z.lor S_IFREG S_IRWXU) v1).
    set (w2 := set_heap (<[next_loc w := v2]> (heap w)) (S (next_loc w)) w1).
    unfold bind at 1, load at 1.
    replace (heap w2 !! next_loc w) with (Some v2)
      by (symmetry; apply lookup_insert_eq).
    change (Size v2 =? 0) with true. cbv iota.
    unfold bind at 1, on_client. change (net w2) with n1. rewrite Hread.
    destruct r as [content | err].
    + rewrite (update_fresh _ v2 _ (set_net n2 w2) (heap w) (S (next_loc w))) by done.
      eexists. split; [reflexivity |]. simpl.
      split; [done |]. unfold installed. simpl.
      by rewrite !lookup_insert_eq.
    + eexists. split; [reflexivity |]. simpl.
      split; [done |]. unfold installed. simpl.
      by rewrite !lookup_insert_eq.
Qed.

(** The names of a listing after the loop of [getDir]: those it had and
    those of the children; every record the loop adds is allocated. *)
Lemma getDir_children_names path now uid gid : forall cs rt w rt' w',
  getDir_children E path now uid gid rt cs w = Ret (rt', w') ->
  (forall name, is_Some (children rt' !! name) <->
                is_Some (children rt !! name) \/ name ∈ Name <$> cs) /\
  (forall name p, children rt' !! name = Some p ->
     children rt !! name = Some p \/
     (next_loc w <= p < next_loc w')%nat /\ is_Some (heap w' !! p)).
Proof.
  induction cs as [| ch cs IH]; intros rt w rt' w'; simpl.
  - intros [= <- <-]. split.
    + intros name. split; [auto | intros [? | ?%elem_of_nil]; done].
    + auto.
  - unfold bind.
    destruct (getDir_child E path now uid gid rt ch w) as [[rt1 w1] |] eqn:H1;
      [| done].
    intros H2.
    destruct (getDir_child_effect E _ _ _ _ _ _ _ _ _ H1)
      as (-> & _ & [v1 Hh1] & Hn1 & _).
    destruct (IH _ _ _ _ H2) as [Hnames Hrecords].
    destruct (getDir_children_effect E _ _ _ _ _ _ _ _ _ H2)
      as (_ & Hn & Hold & _).
    split.
    + intros name. rewrite Hnames. simpl. rewrite elem_of_cons.
      destruct (decide (Name ch = name)) as [<- | Hne].
      * rewrite lookup_insert_eq. split; [auto | eauto].
      * rewrite lookup_insert_ne by done. split; [intros [? | ?]; auto |].
        intros [? | [? | ?]]; [auto | congruence | auto].
    + intros name p Hp. destruct (Hrecords name p Hp) as [Hin | [Hrange Hsome]].
      * simpl in Hin. destruct (decide (Name ch = name)) as [<- | Hne].
        -- rewrite lookup_insert_eq in Hin. injection Hin as <-.
           right. split; [lia |]. rewrite Hold by lia. rewrite Hh1.
           rewrite lookup_insert_eq. eauto.
        -- rewrite lookup_insert_ne in Hin by done. auto.
      * right. split; [lia | done].
Qed.

(** X14. The listing [getDir] returns has exactly the names of the remote
    children as its keys, each once however often the remote listing
    repeats it, and every key leads to an allocated record. *)
Theorem getDir_listing_has_the_children_names path w rt w' :
  getDir E path w = Ret (inl rt, w') ->
  exists dir n1,
    ReadDirectory E path (net w) = Ret (inl dir, n1) /\
    (forall name, is_Some (children rt !! name) <-> name ∈ Name <$> Children dir) /\
    (forall name p, children rt !! name = Some p -> is_Some (heap w' !! p)).
Proof.
  unfold getDir, bind at 1, on_client.
  destruct (ReadDirectory E path (net w)) as [[[dir | err] n1] |] eqn:Hdir;
    [| done | done].
  unfold bind at 1, fuse_Now. unfold bind at 1, fuse_Getcontext.
  unfold bind at 1. simpl.
  destruct (getDir_children E path (clock w) (ctx_uid w) (ctx_gid w)
              {| children := ∅ |} (Children dir) (set_net n1 w))
    as [[rt1 w1] |] eqn:Hloop; [| done].
  intros [= <- <-].
  destruct (getDir_children_names _ _ _ _ _ _ _ _ _ Hloop) as [Hnames Hrecords].
  exists dir, n1. split; [done |]. split.
  - intros name. rewrite Hnames. simpl. rewrite lookup_empty.
    split; [intros [[? ?] | ?]; done | auto].
  - intros name p Hp. destruct (Hrecords name p Hp) as [Hin | [_ Hsome]]; [| done].
    simpl in Hin. by rewrite lookup_empty in Hin.
Qed.

(** One turn of the loop for a child that is a directory: no request. *)
Lemma getDir_child_directory path now uid gid rt ch w :
  child_Directory ch = true ->
  exists rt' w',
    getDir_child E path now uid gid rt ch w = Ret (rt', w') /\ net w' = net w /\
    heap w' !! next_loc w =
      Some {| Mode := Z.lor S_IFDIR S_IRWXU; Uid := uid; Gid := gid; Size := 0;
              Atim := now; Mtim := now; Ctim := now; Flags := 0 |}.
Proof.
  intros Hdir. unfold getDir_child, bind at 1, new_Stat. rewrite Hdir.
  unfold bind at 1.
  erewrite update_fresh; [| simpl; reflexivity | reflexivity].
  eexists _, _. split; [reflexivity |]. simpl. split; [done |].
  by rewrite lookup_insert_eq.
Qed.

Lemma getDir_children_directories path now uid gid : forall cs rt w,
  Forall (fun ch => child_Directory ch = true) cs ->
  exists rt' w',
    getDir_children E path now uid gid rt cs w = Ret (rt', w') /\ net w' = net w.
Proof.
  induction cs as [| ch cs IH]; intros rt w Hall; simpl; [by eauto |].
  apply Forall_cons in Hall as [Hch Hall].
  unfold bind.
  destruct (getDir_child_directory path now uid gid rt ch w Hch)
    as (rt1 & w1 & -> & Hnet1 & _).
  destruct (IH rt1 w1 Hall) as (rt' & w' & -> & Hnet).
  exists rt', w'. split; [done | congruence].
Qed.

(** X15. When every child of the remote listing is a directory, [getDir]
    returns the listing and has sent the listing request alone: it reads
    content for regular files only. *)
Theorem getDir_of_directories_sends_listing_only path w dir n1 :
  ReadDirectory E path (net w) = Ret (inl dir, n1) ->
  Forall (fun ch => child_Directory ch = true) (Children dir) ->
  exists rt w', getDir E path w = Ret (inl rt, w') /\ net w' = n1.
Proof.
  intros Hdir Hall. unfold getDir, bind at 1, on_client. rewrite Hdir.
  unfold bind at 1, fuse_Now. unfold bind at 1, fuse_Getcontext.
  unfold bind at 1. simpl.
  destruct (getDir_children_directories path (clock w) (ctx_uid w) (ctx_gid w)
              (Children dir) {| children := ∅ |} (set_net n1 w) Hall)
    as (rt & w1 & -> & Hnet).
  eexists _, _. split; [reflexivity |]. done.
Qed.

(** X16. [Readdir] answers [-ENOENT] without calling [fill] whenever the
    directory cache yields an error, whichever it is. On a listing it
    answers 0 and calls [fill] exactly once for each name of the listing,
    with that name's record and offset 0. *)
Theorem Readdir_calls_fill_once_per_name path w r w1 :
  GetDir E path w = Ret (r, w1) ->
  exists status calls,
    Readdir E path w = Ret ((status, calls), w1) /\
    (forall e, r = inr e -> status = - ENOENT /\ calls = []) /\
    (forall dir, r = inl dir ->
       status = 0 /\ NoDup (calls.*1.*1) /\
       forall name p ofst,
         (name, p, ofst) ∈ calls <-> children dir !! name = Some p /\ ofst = 0).
Proof.
  intros Hget. unfold Readdir, bind. rewrite Hget.
  destruct r as [dir | e]; eexists _, _; (split; [reflexivity |]).
  - split; [done |]. intros ? [= <-]. split; [done |]. split.
    + assert (Hnames : forall l : list (string * loc),
                ((fun kv : string * loc => (kv.1, kv.2, 0)) <$> l).*1.*1 = l.*1).
      { induction l as [| [k v] l IH]; [done |]. simpl. by f_equal. }
      rewrite Hnames. apply NoDup_fst_map_to_list.
    + intros name p ofst. rewrite list_elem_of_fmap. split.
      * intros [[k v] [[= -> -> ->] Hin]]. by apply elem_of_map_to_list in Hin.
      * intros [Hp ->]. exists (name, p). split; [done |].
        by apply elem_of_map_to_list.
  - split; [by intros ? [= <-] | done].
Qed.

(** X17. A [Read] that returns has changed nothing of the world but the
    client and the requests sent: no cache, no record, no entry of the
    negative-existence list. The buffer keeps its length, and the count is
    [-ENOENT] with the buffer untouched, or a number of bytes from 0 to the
    length of the buffer. *)
Theorem Read_touches_only_the_client path buff ofst w n buff' w' :
  Read E path buff ofst w = Ret ((n, buff'), w') ->
  w' = set_net (net w') w /\
  length buff' = length buff /\
  (n = - ENOENT /\ buff' = buff \/ 0 <= n <= Z.of_nat (length buff)).
Proof.
  unfold Read, bind, on_client.
  destruct (ReadFile E path (net w)) as [[[contents | err] n1] |]; [| | done].
  - match goal with
    | |- context [if ?c then _ else _] => destruct c
    end.
    + intros [= <- <- <-]. split; [done |]. split; [done |]. right. lia.
    + unfold slice_bytes.
      match goal with
      | |- context [if ?c then _ else _] => destruct c
      end; [| done].
      unfold ret, copy. intros [= <- <- <-].
      split; [done |]. split; [| right; lia].
      rewrite length_app, length_take, length_drop. lia.
  - intros [= <- <- <-]. split; [done |]. split; [done |]. by left.
Qed.

(** X18. [Read] does not guard the start of the range: with the contents
    read and a negative offset, the start of [contents[ofst:endofst]] is
    out of range and the call panics. *)
Theorem Read_negative_offset_panics path buff ofst w contents n1 :
  ReadFile E path (net w) = Ret (inl contents, n1) ->
  - 2 ^ 63 <= ofst < 0 ->
  Z.of_nat (length buff) < 2 ^ 63 ->
  Read E path buff ofst w = Panic slice_bounds_out_of_range.
Proof.
  intros Hread Hofst Hlen. unfold Read, bind, on_client. rewrite Hread.
  rewrite wrap64_in_range by lia.
  set (L := Z.of_nat (length contents)).
  assert (0 <= L) by (unfold L; lia).
  destruct (Z.gtb_spec (ofst + Z.of_nat (length buff)) L).
  - destruct (Z.ltb_spec L ofst); [lia |].
    unfold slice_bytes. destruct (Z.leb_spec 0 ofst); [lia | done].
  - destruct (Z.ltb_spec (ofst + Z.of_nat (length buff)) ofst); [lia |].
    unfold slice_bytes. destruct (Z.leb_spec 0 ofst); [lia | done].
Qed.

Lemma keeps_PreDirectoryCacheSeconds path v ttl :
  keeps_frame (PreDirectoryCacheSeconds path v ttl).
Proof. intros w a w' [= <- <-]. done. Qed.

Lemma keeps_throw {A} p : keeps_frame (@throw World A p).
Proof. intros w a w'. done. Qed.

Lemma keeps_getDir_children path now uid gid : forall cs rt,
  keeps_frame (getDir_children E path now uid gid rt cs).
Proof.
  induction cs as [| ch cs IH]; intros rt; simpl; [apply keeps_ret |].
  apply keeps_bind; [| intros; apply IH].
  unfold getDir_child. repeat keeps_step.
Qed.

Lemma keeps_getDir path : keeps_frame (getDir E path).
Proof.
  unfold getDir.
  repeat first [apply keeps_getDir_children | apply keeps_PreDirectoryCacheSeconds
               | keeps_step].
Qed.

Lemma keeps_GetDir path : keeps_frame (GetDir E path).
Proof.
  unfold GetDir, DirectoryCache_GetDir.
  apply keeps_bind; [apply keeps_get | intros w].
  assert (Hmiss : keeps_frame
            (let* r := getDir E path in
             match r with
             | inl v => PreDirectoryCacheSeconds path v DefaultRemoteCacheSeconds >> ret (inl v)
             | inr e => ret (inr e)
             end)).
  { apply keeps_bind; [apply keeps_getDir | intros r].
    repeat first [apply keeps_PreDirectoryCacheSeconds | keeps_step]. }
  destruct (dirCache w !! path) as [e |]; [| done].
  destruct (entry_valid _ e); [apply keeps_ret | done].
Qed.

Lemma keeps_Readdir path : keeps_frame (Readdir E path).
Proof.
  unfold Readdir. apply keeps_bind; [apply keeps_GetDir | intros r].
  destruct r; apply keeps_ret.
Qed.

Lemma keeps_Read path buff ofst : keeps_frame (Read E path buff ofst).
Proof.
  unfold Read. apply keeps_bind; [apply keeps_on_client | intros r].
  destruct r as [contents | err]; [| apply keeps_ret].
  match goal with
  | |- context [if ?c then _ else _] => destruct c
  end; [apply keeps_ret |].
  apply keeps_bind.
  - unfold slice_bytes.
    match goal with
    | |- context [if ?c then _ else _] => destruct c
    end; [apply keeps_ret | apply keeps_throw].
  - intros src. destruct (copy buff src). apply keeps_ret.
Qed.

Lemma keeps_extends {A} (m : Comp World A) : keeps_frame m -> extends_list m.
Proof.
  intros Hm w a w' Hrun. destruct (Hm _ _ _ Hrun) as [Hl _].
  exists []. by rewrite app_nil_r.
Qed.

Lemma extends_bind {A B} (m : Comp World A) (k : A -> Comp World B) :
  extends_list m -> (forall a, extends_list (k a)) -> extends_list (bind m k).
Proof.
  intros Hm Hk w b w'. unfold bind.
  destruct (m w) as [[a w1] |] eqn:Hmw; [| done].
  intros Hkw. destruct (Hm _ _ _ Hmw) as [l1 H1].
  destruct (Hk _ _ _ _ Hkw) as [l2 H2].
  exists (l1 ++ l2). by rewrite H2, H1, app_assoc.
Qed.

Lemma extends_notExist path : extends_list (notExist path).
Proof.
  intros w a w'. rewrite notExist_eq. intros [= <- <-].
  destruct (isNotExist_in (notExistList w) path).
  - exists []. by rewrite app_nil_r.
  - by exists [path].
Qed.

Lemma extends_Getattr path s : extends_list (Getattr E path s).
Proof.
  unfold Getattr.
  apply extends_bind; [by apply keeps_extends; intros w a w' [= <- <-] |].
  intros absent. destruct absent; [apply keeps_extends, keeps_ret |].
  apply extends_bind; [apply keeps_extends, keeps_GetStat |].
  intros [stat | err].
  - apply keeps_extends. repeat keeps_step.
  - apply extends_bind; [apply extends_notExist |].
    intros _. apply keeps_extends, keeps_ret.
Qed.

Lemma extends_run_call c : extends_list (run_call E c).
Proof.
  destruct c; simpl;
    try (apply extends_bind; [| intros; apply keeps_extends, keeps_ret]).
  - apply extends_Getattr.
  - apply keeps_extends, keeps_Readdir.
  - apply keeps_extends, keeps_Read.
  - apply keeps_extends, keeps_ret.
  - apply keeps_extends, keeps_ret.
  - apply keeps_extends, keeps_ret.
  - apply keeps_extends, keeps_ret.
  - apply keeps_extends, keeps_ret.
  - intros w a w' [= <- <-]. exists []. simpl. by rewrite app_nil_r.
  - intros w a w' [= <- <-]. exists []. simpl. by rewrite app_nil_r.
Qed.

Lemma extends_run_calls cs : extends_list (run_calls E cs).
Proof.
  induction cs as [| c cs IH]; simpl; [apply keeps_extends, keeps_ret |].
  apply extends_bind; [apply extends_run_call | intros; apply IH].
Qed.

(** X19. No operation of the adapter takes a path out of the
    negative-existence list: after any sequence of calls, by any user at
    any time, the list begins with what it held before. A path that is in
    the list therefore stays absent: [Getattr] on it returns [-ENOENT]
    without a request, also when the remote service has the path by then
    and a listing has cached its attributes. *)
Theorem listed_path_stays_absent calls path w w' :
  isNotExist_in (notExistList w) path = true ->
  run_calls E calls w = Ret (tt, w') ->
  (exists l, notExistList w' = notExistList w ++ l) /\
  forall s, Getattr E path s w' = Ret (- ENOENT, w').
Proof.
  intros Hin Hrun.
  destruct (extends_run_calls calls _ _ _ Hrun) as [l Hl].
  split; [by exists l |].
  intros s. apply Getattr_listed. rewrite Hl.
  apply isNotExist_in_true, elem_of_app. left. by apply isNotExist_in_true.
Qed.

(** X20. [Getattr] knows two answers: whenever it returns, the status is 0
    or [-ENOENT], whatever error the lookup met. *)
Theorem Getattr_status_is_0_or_ENOENT path s w status w' :
  Getattr E path s w = Ret (status, w') ->
  status = 0 \/ status = - ENOENT.
Proof.
  unfold Getattr, bind, isNotExist.
  destruct (isNotExist_in (notExistList w) path); [intros [= <- _]; auto |].
  destruct (GetStat E path w) as [[[stat | err] w1] |]; [| | done].
  - destruct (load stat w1) as [[v w2] |]; [| done].
    match goal with
    | |- context [if ?c then _ else _] => destruct c
    end.
    + destruct (fuse_Getcontext w2) as [[[uid gid] w3] |]; [| done].
      destruct (update stat (set_owner uid gid) w3) as [[[] w4] |]; [| done].
      destruct (load stat w4) as [[v' w5] |]; [| done].
      intros [= <- _]. auto.
    + unfold ret. destruct (load stat w2) as [[v' w3] |]; [| done].
      intros [= <- _]. auto.
  - rewrite notExist_eq. intros [= <- _]. auto.
Qed.

End MoreAdapterProperties.

(** * Further properties: body errors, refreshed reads, the removal loop *)

Section MoreReadProperties.

Variable E : Env.

(** X21. [Stat] does not report a failure to read the body: the error of
    [ToString] is dropped and the result is the one an empty body gives,
    the decoders' verdict on the empty string. *)
Theorem Stat_drops_body_read_error filePath n r e :
  let rq := request_sent E (client n) "GET" (file_prefix +:+ filePath)%string
              [QueryParam [("depth", "0"); ("parts", "meta")]]%string in
  remote E (sent n) rq = Answered r ->
  isCSRFTokenError (Response r) = false ->
  StatusCode (Response r) <> 404 ->
  resp_body r = inr e ->
  Stat E filePath n =
    Ret (PathStat_of_body E "", {| client := client n; sent := rq :: sent n |}).
Proof.
  intros rq H Hno H404 Hbody.
  rewrite (Stat_answered E filePath n r H Hno).
  apply Z.eqb_neq in H404. rewrite H404.
  unfold body_string. by rewrite Hbody.
Qed.

(** A request answered with the signal, a handshake that yields a token,
    and the retry. *)
Lemma request_retry method path infos n r1 r2 :
  let rq := request_sent E (client n) method path infos in
  let hs := handshake_request E (client n) in
  let tok := Header_Get (resp_Header (Response r2)) "x-csrf-token" in
  remote E (sent n) rq = Answered r1 ->
  isCSRFTokenError (Response r1) = true ->
  remote E (rq :: sent n) hs = Answered r2 ->
  tok <> ""%string -> tok <> "unsafe"%string ->
  request E method path infos n =
    Ret (as_go_pair (remote E (hs :: rq :: sent n) rq),
         {| client := set_token tok (client n); sent := rq :: hs :: rq :: sent n |}).
Proof.
  intros rq hs tok H1 Hcsrf H2 Hne Hun.
  unfold request, bind, get. rewrite req_Do_eq.
  fold (request_sent E (client n) method path infos). fold rq.
  rewrite H1. simpl. rewrite Hcsrf. unfold bind.
  rewrite (fetchCSRFToken_answered E {| client := client n; sent := rq :: sent n |}
             r2 H2).
  simpl. fold tok.
  assert (Hv : negb (String.length tok =? 0)%nat && negb (String.eqb tok "unsafe") = true)
    by (by apply token_test_true).
  rewrite Hv, req_Do_eq. simpl.
  change (mkRequest method (formatURI (client n) path)
            (infos ++ [auth_header E (client n) (token (client n))])) with rq.
  fold hs. by destruct (remote E (hs :: rq :: sent n) rq).
Qed.

(** X22. After a token refresh [ReadFile] takes the answer to the retry as
    final, whatever it is: unless its status is 404, the result of reading
    its body is returned as the content of the file, also when the answer
    is the token-required signal once more. *)
Theorem ReadFile_after_refresh_returns_retry_body filePath n r1 r2 r3 :
  let rq := request_sent E (client n) "GET" (file_prefix +:+ filePath)%string [] in
  let hs := handshake_request E (client n) in
  let tok := Header_Get (resp_Header (Response r2)) "x-csrf-token" in
  remote E (sent n) rq = Answered r1 ->
  isCSRFTokenError (Response r1) = true ->
  remote E (rq :: sent n) hs = Answered r2 ->
  tok <> ""%string /\ tok <> "unsafe"%string ->
  remote E (hs :: rq :: sent n) rq = Answered r3 ->
  StatusCode (Response r3) <> 404 ->
  ReadFile E filePath n =
    Ret (resp_body r3,
         {| client := set_token tok (client n); sent := rq :: hs :: rq :: sent n |}).
Proof.
  intros rq hs tok H1 Hcsrf H2 [Hne Hun] H3 H404.
  unfold ReadFile, bind.
  rewrite (request_retry "GET" _ [] n r1 r2 H1 Hcsrf H2 Hne Hun).
  fold rq hs. rewrite H3. simpl.
  apply Z.eqb_neq in H404. by rewrite H404.
Qed.

End MoreReadProperties.

(** The loop of [removeFromNotExist] passes over the places that do not
    hold the path. *)
Lemma remove_range_skip path a : forall b i s,
  (forall j x, (i <= j < i + a)%nat -> backing s !! j = Some x -> x <> path) ->
  (i + a <= length (backing s))%nat ->
  remove_range path (a + b) i s = remove_range path b (i + a) s.
Proof.
  induction a as [| a IH]; intros b i s Hno Hlen; simpl.
  - by rewrite Nat.add_0_r.
  - destruct (backing s !! i) as [x |] eqn:Hx.
    + destruct (String.eqb_spec x path) as [-> | Hne].
      * exfalso. by apply (Hno i path); [lia | |].
      * rewrite IH; [f_equal; lia | | lia].
        intros j y Hj. apply Hno. lia.
    + apply lookup_ge_None in Hx. lia.
Qed.

(** X23. The loop of [removeFromNotExist], run on a list that holds the
    path exactly once, deletes that occurrence and nothing else. (The
    guard before the loop never lets it run on such a list.) *)
Theorem remove_range_deletes_single_occurrence path l1 l2 :
  path ∉ l1 -> path ∉ l2 ->
  exists s,
    remove_range path (length (l1 ++ path :: l2)) 0 (slice_of (l1 ++ path :: l2)) = Ret s /\
    slice_view s = l1 ++ l2.
Proof.
  intros H1 H2.
  set (B := l1 ++ path :: l2).
  assert (HlenB : length B = (length l1 + S (length l2))%nat)
    by (unfold B; rewrite length_app; simpl; lia).
  rewrite HlenB.
  rewrite remove_range_skip; simpl; [| | lia].
  2: { intros j x Hj Hx. unfold B in Hx. rewrite lookup_app_l in Hx by lia.
       intros ->. apply H1. by eapply list_elem_of_lookup_2. }
  assert (Hat : B !! length l1 = Some path) by (unfold B; apply list_lookup_middle; done).
  rewrite Hat, String.eqb_refl.
  unfold slice_delete.
  change (slen (slice_of B)) with (length B). change (backing (slice_of B)) with B.
  replace (S (length l1) <=? length B)%nat with true
    by (symmetry; apply Nat.leb_le; lia).
  set (s' := {| backing := take (length l1) B ++ drop (S (length l1)) (take (length B) B)
                             ++ drop (length B - 1) B;
                slen := (length B - 1)%nat |}).
  assert (Hback : backing s' = l1 ++ l2 ++ drop (length l2) (path :: l2)).
  { unfold s'. simpl. rewrite firstn_all. unfold B.
    rewrite take_app_length.
    replace (S (length l1)) with (length l1 + 1)%nat by lia.
    rewrite <- drop_drop, drop_app_length. simpl. rewrite drop_0.
    f_equal. f_equal.
    replace (length (l1 ++ path :: l2) - 1)%nat with (length l1 + length l2)%nat
      by (rewrite length_app; simpl; lia).
    by rewrite <- drop_drop, drop_app_length. }
  exists s'. split.
  - replace (length l2) with (length l2 + 0)%nat at 1 by lia.
    rewrite remove_range_skip; [done | |].
    + intros j x Hj Hx. rewrite Hback in Hx.
      rewrite lookup_app_r in Hx by lia.
      intros ->. apply H2.
      destruct l2 as [| y l2']; [simpl in Hj; lia |].
      pose proof (list_elem_of_lookup_2 _ _ _ Hx) as Hin.
      apply elem_of_app in Hin as [Hin | Hin]; [done |].
      simpl in Hin.
      rewrite <- (take_drop (length l2') (y :: l2')). apply elem_of_app. by right.
    + rewrite Hback, !length_app, length_drop. simpl. lia.
  - unfold slice_view. rewrite Hback. unfold s'. simpl. rewrite HlenB.
    replace (length l1 + S (length l2) - 1)%nat with (length (l1 ++ l2))%nat
      by (rewrite length_app; lia).
    by rewrite app_assoc, take_app_length.
Qed.

(** X24. The loop of [removeFromNotExist], run on a list that ends with
    two occurrences of the path, deletes the first and then slices the
    shortened list out of range: it panics. *)
Theorem remove_range_trailing_duplicates_panic path l :
  path ∉ l ->
  remove_range path (length (l ++ [path; path])) 0 (slice_of (l ++ [path; path]))
    = Panic slice_bounds_out_of_range.
Proof.
  intros Hl.
  set (B := l ++ [path; path]).
  assert (HlenB : length B = (length l + 2)%nat)
    by (unfold B; rewrite length_app; simpl; lia).
  rewrite HlenB.
  rewrite remove_range_skip; simpl; [| | lia].
  2: { intros j x Hj Hx. unfold B in Hx. rewrite lookup_app_l in Hx by lia.
       intros ->. apply Hl. by eapply list_elem_of_lookup_2. }
  assert (Hat : B !! length l = Some path) by (unfold B; apply list_lookup_middle; done).
  rewrite Hat, String.eqb_refl.
  unfold slice_delete at 1.
  change (slen (slice_of B)) with (length B). change (backing (slice_of B)) with B.
  replace (S (length l) <=? length B)%nat with true
    by (symmetry; apply Nat.leb_le; lia).
  assert (Hback : take (length l) B ++ drop (S (length l)) (take (length B) B)
                    ++ drop (length B - 1) B = B).
  { rewrite firstn_all. unfold B. rewrite take_app_length.
    replace (S (length l)) with (length l + 1)%nat by lia.
    rewrite <- drop_drop, drop_app_length. simpl.
    replace (length (l ++ [path; path]) - 1)%nat with (length l + 1)%nat
      by (rewrite length_app; simpl; lia).
    by rewrite <- drop_drop, drop_app_length. }
  rewrite Hback.
  assert (Hnext : B !! S (length l) = Some path).
  { unfold B. rewrite lookup_app_r by lia.
    by replace (S (length l) - length l)%nat with 1%nat by lia. }
  cbn [remove_range backing]. rewrite Hnext, String.eqb_refl.
  unfold slice_delete. cbn [slen].
  replace (S (S (length l)) <=? length B - 1)%nat with false
    by (symmetry; apply Nat.leb_gt; lia).
  done.
Qed.

(** * The further statements at work on a repository *)

Section MoreRuns.

Import Demo.

Local Open Scope string_scope.

Lemma returned {A} (o : Outcome (A * World)) w :
  match o with
  | Ret _ => true
  | Panic _ => false
  end = true ->
  exists a, o = Ret (a, after o w).
Proof. destruct o as [[a w0] |]; [| discriminate]. intros _. by exists a. Qed.

Lemma request_sends_at_most_one_retry_witness :
  let n := net_with "" in
  let rq := request_sent env (client n) "GET" (file_prefix +:+ "/f") [] in
  let hs := handshake_request env (client n) in
  let n' := net_after (request env "GET" (file_prefix +:+ "/f") [] n) n in
  request env "GET" (file_prefix +:+ "/f") [] n
    = Ret (as_go_pair (status 403 [("X-Csrf-Token", "Required")]), n') /\
  (sent n' = [rq] \/ sent n' = [hs; rq] \/ sent n' = [rq; hs; rq]).
Proof.
  intros n rq hs n'.
  assert (Hrun : request env "GET" (file_prefix +:+ "/f") [] n
                 = Ret (as_go_pair (status 403 [("X-Csrf-Token", "Required")]), n'))
    by reflexivity.
  split; [exact Hrun |].
  exact (proj1 (request_sends_at_most_one_retry env "GET" (file_prefix +:+ "/f") []
                  n _ n' Hrun)).
Defined.

Lemma request_retry_transport_error_returned_witness :
  let n := net_with "" in
  let rq := request_sent flaky_env (client n) "GET" (file_prefix +:+ "/f") [] in
  let hs := handshake_request flaky_env (client n) in
  (remote flaky_env (sent n) rq = status 403 [("X-Csrf-Token", "Required")] /\
   remote flaky_env (rq :: sent n) hs = status 200 [("X-Csrf-Token", "T1")] /\
   remote flaky_env (hs :: rq :: sent n) rq
     = TransportError (library_error "read: connection reset by peer")) /\
  request flaky_env "GET" (file_prefix +:+ "/f") [] n =
    Ret ((None, Some (library_error "read: connection reset by peer")),
         {| client := client_with "T1"; sent := [rq; hs; rq] |}).
Proof.
  split; [split_and!; reflexivity |].
  apply (request_retry_transport_error_returned flaky_env "GET" (file_prefix +:+ "/f") []
           (net_with "")
           {| Response := {| StatusCode := 403;
                             resp_Header := [("X-Csrf-Token", "Required")] |};
              resp_body := inl [] |}
           {| Response := {| StatusCode := 200;
                             resp_Header := [("X-Csrf-Token", "T1")] |};
              resp_body := inl [] |});
    [reflexivity | reflexivity | reflexivity | discriminate | discriminate | reflexivity].
Defined.

Lemma ReadFile_only_404_is_absence_witness :
  let n := net_with "T1" in
  let rq := request_sent failing_env (client n) "GET" (file_prefix +:+ "/f") [] in
  (remote failing_env (sent n) rq = failing_service [] rq /\
   isCSRFTokenError {| StatusCode := 500; resp_Header := [] |} = false) /\
  ReadFile failing_env "/f" n =
    Ret (inl (list_byte_of_string "Internal Server Error"),
         {| client := client n; sent := [rq] |}).
Proof.
  intros n rq. split; [split; reflexivity |].
  destruct (ReadFile_only_404_is_absence failing_env "/f" n _ eq_refl eq_refl)
    as (res & Hrun & _ & Hbody).
  rewrite Hrun. by rewrite Hbody.
Defined.

Lemma ReadDirectory_decodes_any_non404_witness :
  let n := net_with "T1" in
  let rq := request_sent env (client n) "GET" (file_prefix +:+ "/parent")
              [QueryParam [("depth", "1")]] in
  (remote env (sent n) rq = ok "LISTING" /\
   isCSRFTokenError {| StatusCode := 200; resp_Header := [] |} = false) /\
  ReadDirectory env "/parent" n =
    Ret (inl listing, {| client := client n; sent := [rq] |}).
Proof.
  intros n rq. split; [split; reflexivity |].
  destruct (ReadDirectory_decodes_any_non404 env "/parent" n _ eq_refl eq_refl)
    as (res & Hrun & _ & Hbody).
  rewrite Hrun. destruct Hbody as [_ Hdecode]; [done |].
  by rewrite (Hdecode _ eq_refl).
Defined.


Lemma spells_X_CSRF_TOKEN : spells "X-CSRF-TOKEN" "x-csrf-token".
Proof.
  repeat match goal with
         | |- spells EmptyString EmptyString => apply spells_nil
         | |- spells (String ?a ?s) (String ?c ?t) =>
             first [ apply spells_same
                   | refine (spells_upper c s t _ _); [vm_compute; lia |] ]
         end.
Qed.

Lemma spells_ReQuIrEd : spells "ReQuIrEd" "required".
Proof.
  repeat match goal with
         | |- spells EmptyString EmptyString => apply spells_nil
         | |- spells (String ?a ?s) (String ?c ?t) =>
             first [ apply spells_same
                   | refine (spells_upper c s t _ _); [vm_compute; lia |] ]
         end.
Qed.

Lemma isCSRFTokenError_ignores_case_witness :
  isCSRFTokenError {| StatusCode := 403; resp_Header := [("X-CSRF-TOKEN", "ReQuIrEd")] |}
    = true /\
  isCSRFTokenError {| StatusCode := 401; resp_Header := [("X-CSRF-TOKEN", "ReQuIrEd")] |}
    = false.
Proof.
  split.
  - exact (isCSRFTokenError_ignores_case 403 "X-CSRF-TOKEN" "ReQuIrEd" []
             spells_X_CSRF_TOKEN spells_ReQuIrEd).
  - exact (isCSRFTokenError_ignores_case 401 "X-CSRF-TOKEN" "ReQuIrEd" []
             spells_X_CSRF_TOKEN spells_ReQuIrEd).
Defined.

(** Beyond ASCII: the capital I with a dot above (U+0130, bytes 196 176)
    lowers to [i] and the Kelvin sign (U+212A) to [k], as in Go, so a
    value written with the first is the signal; a value with another rune
    beyond ASCII is not. *)
Example isCSRFTokenError_beyond_ascii :
  let dotted_I := String "196"%char (String "176"%char EmptyString) in
  let e_acute := String "195"%char (String "137"%char EmptyString) in
  isCSRFTokenError {| StatusCode := 403;
                      resp_Header := [("X-Csrf-Token", "REQU" +:+ dotted_I +:+ "RED")] |}
    = true /\
  isCSRFTokenError {| StatusCode := 403;
                      resp_Header := [("X-Csrf-Token", "R" +:+ e_acute +:+ "QUIRED")] |}
    = false /\
  strings_ToLower (String "226"%char (String "132"%char (String "170"%char "ELVIN")))
    = "kelvin".
Proof. repeat split. Qed.

(** [NewClient] and [formatURI] on [hana.example]: construction succeeds
    with the token the service issues; with port 8443 the URL names the
    port twice. *)
Example NewClient_and_formatURI_at_work :
  NewClient env resolves example_uri [] =
    Ret ((Some (client_with "T1"), None), [handshake_request env (client_with "")]) /\
  formatURI {| uri := {| url_Hostname := "hana.example"; url_Port := "8443";
                         url_Username := "SYSTEM"; url_Password := "secret";
                         url_Path := "/" |};
               token := ""; sslVerify := true; baseDirectory := "/" |} "/x"
    = "https://hana.example:8443:8443/x".
Proof. split; reflexivity. Qed.

Lemma getStat_reads_its_own_path_witness :
  let w := world_with "T1" in
  let n1 := net_after (Stat env "/f" (net w)) (net w) in
  let n2 := net_after (ReadFile env "/f" n1) n1 in
  (exists hanaStat, Stat env "/f" (net w) = Ret (inl hanaStat, n1) /\
                    Directory hanaStat = false) /\
  ReadFile env "/f" n1 = Ret (inl (list_byte_of_string "hello"), n2) /\
  exists w' v,
    getStat env "/f" w = Ret (inl 0%nat, w') /\ net w' = n2 /\
    heap w' !! 0%nat = Some v /\ Size v = 5.
Proof.
  intros w n1 n2.
  set (hanaStat := {| Directory := false; Executable := false; Archive := false;
                      Hidden := false; ReadOnly := false; SymbolicLink := false;
                      Activated := false; TimeStamp := 0 |}).
  assert (Hstat : Stat env "/f" (net w) = Ret (inl hanaStat, n1))
    by (vm_compute; reflexivity).
  assert (Hread : ReadFile env "/f" n1 = Ret (inl (list_byte_of_string "hello"), n2))
    by (vm_compute; reflexivity).
  split; [by exists hanaStat |]. split; [exact Hread |].
  destruct (proj2 (getStat_reads_its_own_path env "/f" w hanaStat n1 Hstat)
              eq_refl _ _ Hread)
    as (w' & Hrun & Hnet & Hheap & _).
  exists w'. eexists. split; [exact Hrun |]. split; [exact Hnet |].
  split; [exact Hheap | reflexivity].
Defined.

Lemma getDir_listing_has_the_children_names_witness :
  let w := world_with "T1" in
  let w' := after (getDir directories_env "/parent" w) w in
  exists rt,
    getDir directories_env "/parent" w = Ret (inl rt, w') /\
    forall name, is_Some (children rt !! name) <-> name ∈ ["b"; "c"; "b"].
Proof.
  intros w w'.
  destruct (returned_listing (getDir directories_env "/parent" w) w) as [rt Hrun];
    [vm_compute; reflexivity |].
  fold w' in Hrun. exists rt. split; [exact Hrun |].
  destruct (getDir_listing_has_the_children_names directories_env "/parent" w rt w' Hrun)
    as (dir & n1 & Hdir & Hnames & _).
  assert (H : ReadDirectory directories_env "/parent" (net w)
              = Ret (inl directories,
                     net_after (ReadDirectory directories_env "/parent" (net w)) (net w)))
    by (vm_compute; reflexivity).
  rewrite H in Hdir. injection Hdir as <- _. exact Hnames.
Defined.

Lemma getDir_of_directories_sends_listing_only_witness :
  let w := world_with "T1" in
  let n1 := net_after (ReadDirectory directories_env "/parent" (net w)) (net w) in
  (ReadDirectory directories_env "/parent" (net w) = Ret (inl directories, n1) /\
   Forall (fun ch => child_Directory ch = true) (Children directories)) /\
  exists rt w', getDir directories_env "/parent" w = Ret (inl rt, w') /\ net w' = n1.
Proof.
  intros w n1.
  assert (Hdir : ReadDirectory directories_env "/parent" (net w)
                 = Ret (inl directories, n1))
    by (vm_compute; reflexivity).
  assert (Hall : Forall (fun ch => child_Directory ch = true) (Children directories))
    by (repeat constructor).
  split; [by split |].
  exact (getDir_of_directories_sends_listing_only directories_env "/parent" w
           directories n1 Hdir Hall).
Defined.

Lemma Readdir_calls_fill_once_per_name_witness :
  let w := world_with "T1" in
  let w1 := after (GetDir env "/parent" w) w in
  (exists dir, GetDir env "/parent" w = Ret (inl dir, w1)) /\
  exists calls,
    Readdir env "/parent" w = Ret ((0, calls), w1) /\ NoDup (calls.*1.*1).
Proof.
  intros w w1.
  destruct (returned_listing (GetDir env "/parent" w) w) as [dir Hget];
    [vm_compute; reflexivity |].
  fold w1 in Hget. split; [by exists dir |].
  destruct (Readdir_calls_fill_once_per_name env "/parent" w _ w1 Hget)
    as (st & calls & Hrun & _ & Hlisting).
  destruct (Hlisting dir eq_refl) as (-> & Hnodup & _).
  by exists calls.
Defined.

Lemma Read_touches_only_the_client_witness :
  let w := world_with "T1" in
  let buff := list_byte_of_string "...." in
  let w' := after (Read env "/f" buff 3 w) w in
  Read env "/f" buff 3 w = Ret ((2, list_byte_of_string "lo.."), w') /\
  w' = set_net (net w') w /\
  length (list_byte_of_string "lo..") = length buff.
Proof.
  intros w buff w'.
  assert (Hrun : Read env "/f" buff 3 w = Ret ((2, list_byte_of_string "lo.."), w'))
    by (vm_compute; reflexivity).
  split; [exact Hrun |].
  destruct (Read_touches_only_the_client env "/f" buff 3 w _ _ w' Hrun)
    as (Hframe & Hlen & _).
  by split.
Defined.

Lemma Read_negative_offset_panics_witness :
  let w := world_with "T1" in
  let buff := list_byte_of_string "...." in
  (ReadFile env "/f" (net w)
     = Ret (inl (list_byte_of_string "hello"), net_after (ReadFile env "/f" (net w)) (net w)) /\
   - 2 ^ 63 <= -1 < 0 /\ Z.of_nat (length buff) < 2 ^ 63) /\
  Read env "/f" buff (-1) w = Panic slice_bounds_out_of_range.
Proof.
  intros w buff.
  assert (Hread : ReadFile env "/f" (net w)
                  = Ret (inl (list_byte_of_string "hello"),
                         net_after (ReadFile env "/f" (net w)) (net w)))
    by (vm_compute; reflexivity).
  assert (Hofst : - 2 ^ 63 <= -1 < 0) by (split; [discriminate | reflexivity]).
  assert (Hlen : Z.of_nat (length buff) < 2 ^ 63) by reflexivity.
  split; [by split_and! |].
  exact (Read_negative_offset_panics env "/f" buff (-1) w _ _ Hread Hofst Hlen).
Defined.

Lemma listed_path_stays_absent_witness :
  let calls := [CallReaddir "/parent"; Elapse {| Sec := 5000; Nsec := 0 |};
                CalledBy 0 0; CallGetattr "/parent/a" 9%nat;
                CallRead "/parent/a" (list_byte_of_string "....") 0;
                CallGetattr "/parent/b" 9%nat] in
  let w' := after (run_calls late_env calls looked_up_early) looked_up_early in
  (isNotExist_in (notExistList looked_up_early) "/parent/a" = true /\
   run_calls late_env calls looked_up_early = Ret (tt, w')) /\
  (exists e, statCache w' !! "/parent/a" = Some e) /\
  Getattr late_env "/parent/a" 9%nat w' = Ret (- ENOENT, w').
Proof.
  intros calls w'.
  assert (Hrun : run_calls late_env calls looked_up_early = Ret (tt, w')).
  { destruct (returned (run_calls late_env calls looked_up_early) looked_up_early)
      as [[] Hrun]; [vm_compute; reflexivity | exact Hrun]. }
  split; [split; [vm_compute; reflexivity | exact Hrun] |].
  split; [eexists; vm_compute; reflexivity |].
  exact (proj2 (listed_path_stays_absent late_env calls "/parent/a" looked_up_early w'
                  eq_refl Hrun) 9%nat).
Defined.

Lemma Getattr_status_is_0_or_ENOENT_witness :
  let w := world_with "T1" in
  Getattr env "/f" 9%nat w = Ret (0, after (Getattr env "/f" 9%nat w) w) /\
  Getattr env "/missing" 9%nat w
    = Ret (- ENOENT, after (Getattr env "/missing" 9%nat w) w) /\
  (0 = 0 \/ 0 = - ENOENT) /\ (- ENOENT = 0 \/ - ENOENT = - ENOENT).
Proof.
  intros w.
  assert (H1 : Getattr env "/f" 9%nat w = Ret (0, after (Getattr env "/f" 9%nat w) w))
    by (vm_compute; reflexivity).
  assert (H2 : Getattr env "/missing" 9%nat w
               = Ret (- ENOENT, after (Getattr env "/missing" 9%nat w) w))
    by (vm_compute; reflexivity).
  split; [exact H1 |]. split; [exact H2 |].
  split.
  - exact (Getattr_status_is_0_or_ENOENT env "/f" 9%nat w _ _ H1).
  - exact (Getattr_status_is_0_or_ENOENT env "/missing" 9%nat w _ _ H2).
Defined.

Lemma Stat_drops_body_read_error_witness :
  let n := net_with "T1" in
  let rq := request_sent truncated_env (client n) "GET" (file_prefix +:+ "/f")
              [QueryParam [("depth", "0"); ("parts", "meta")]] in
  (remote truncated_env (sent n) rq = truncated_service [] rq /\
   isCSRFTokenError {| StatusCode := 200; resp_Header := [] |} = false /\
   200 <> 404) /\
  Stat truncated_env "/f" n =
    Ret (inr (library_error "invalid character"),
         {| client := client n; sent := [rq] |}).
Proof.
  intros n rq. split; [split_and!; done |].
  exact (Stat_drops_body_read_error truncated_env "/f" n _
           (library_error "unexpected EOF") eq_refl eq_refl
           ltac:(discriminate) eq_refl).
Defined.

Lemma ReadFile_after_refresh_returns_retry_body_witness :
  let n := net_with "" in
  let rq := request_sent env (client n) "GET" (file_prefix +:+ "/f") [] in
  let hs := handshake_request env (client n) in
  (remote env (sent n) rq = status 403 [("X-Csrf-Token", "Required")] /\
   remote env (rq :: sent n) hs = status 200 [("X-Csrf-Token", "T1")] /\
   remote env (hs :: rq :: sent n) rq = status 403 [("X-Csrf-Token", "Required")]) /\
  ReadFile env "/f" n =
    Ret (inl [], {| client := client_with "T1"; sent := [rq; hs; rq] |}) /\
  ReadFile env "/f" (net_with "T1") =
    Ret (inl (list_byte_of_string "hello"),
         {| client := client_with "T1";
            sent := [request_sent env (client_with "T1") "GET" (file_prefix +:+ "/f") []] |}).
Proof.
  intros n rq hs. split; [split_and!; reflexivity |].
  split; [| reflexivity].
  apply (ReadFile_after_refresh_returns_retry_body env "/f" n
           {| Response := {| StatusCode := 403;
                             resp_Header := [("X-Csrf-Token", "Required")] |};
              resp_body := inl [] |}
           {| Response := {| StatusCode := 200;
                             resp_Header := [("X-Csrf-Token", "T1")] |};
              resp_body := inl [] |}
           {| Response := {| StatusCode := 403;
                             resp_Header := [("X-Csrf-Token", "Required")] |};
              resp_body := inl [] |});
    [reflexivity | reflexivity | reflexivity | split; discriminate | reflexivity
    | discriminate].
Defined.

Lemma remove_range_deletes_single_occurrence_witness :
  (("/a" ∉ ["/x"; "/y"]) /\ ("/a" ∉ ["/z"])) /\
  exists s,
    remove_range "/a" 4 0 (slice_of ["/x"; "/y"; "/a"; "/z"]) = Ret s /\
    slice_view s = ["/x"; "/y"; "/z"].
Proof.
  assert (H1 : "/a" ∉ ["/x"; "/y"]) by (by apply isNotExist_in_false).
  assert (H2 : "/a" ∉ ["/z"]) by (by apply isNotExist_in_false).
  split; [by split |].
  exact (remove_range_deletes_single_occurrence "/a" ["/x"; "/y"] ["/z"] H1 H2).
Defined.

Lemma remove_range_trailing_duplicates_panic_witness :
  ("/a" ∉ ["/x"]) /\
  remove_range "/a" 3 0 (slice_of ["/x"; "/a"; "/a"]) = Panic slice_bounds_out_of_range.
Proof.
  assert (H : "/a" ∉ ["/x"]) by (by apply isNotExist_in_false).
  split; [exact H |].
  exact (remove_range_trailing_duplicates_panic "/a" ["/x"] H).
Defined.

End MoreRuns.
